(** * topologiq: greedy BFS utilities ([utils/utils_greedy_bfs.py])

    A shallow embedding of the placement helpers of the greedy BFS
    (obstruction checks, candidate generation, beam pruning, re-indexing of
    edge paths and the symbolic kind transforms), with the properties the
    specification states about them.

    Python integers are unbounded and are modelled by [Z]; tuples of three
    integers by [Z * Z * Z]; lists by [list]; a [set] of coordinates by
    [gset]; a [dict], whose iteration order is its insertion order, by an
    association list with unique keys; an exception by [None] in the option
    monad. *)

From Stdlib Require Import ZArith Lia Ascii.
From stdpp Require Import base option list gmap strings.

Local Open Scope Z_scope.

(** ** Python runtime: values, [==], [in], [range] *)

Module Py.

(** The values that reach an [in] test in this file: integers, tuples and
    lists.  [==] is structural, and a tuple never equals a list. *)
#[local] Unset Elimination Schemes.
Inductive value : Type :=
| Int (z : Z)
| Tuple (items : list value)
| List (items : list value).
#[local] Set Elimination Schemes.

Fixpoint eq (a b : value) {struct a} : bool :=
  match a, b with
  | Int x, Int y => x =? y
  | Tuple xs, Tuple ys =>
      (fix items xs ys {struct xs} :=
         match xs, ys with
         | [], [] => true
         | x :: xs', y :: ys' => eq x y && items xs' ys'
         | _, _ => false
         end) xs ys
  | List xs, List ys =>
      (fix items xs ys {struct xs} :=
         match xs, ys with
         | [], [] => true
         | x :: xs', y :: ys' => eq x y && items xs' ys'
         | _, _ => false
         end) xs ys
  | _, _ => false
  end.

(** [x in l] for a list [l]: some element equals [x]. *)
Definition contains (l : list value) (x : value) : bool :=
  existsb (fun y => eq y x) l.

(** [range(start, stop, step)] for a positive [step]. *)
Definition range (start stop step : Z) : list Z :=
  map (fun k => start + Z.of_nat k * step)
      (seq 0 (Z.to_nat ((stop - start + step - 1) / step))).

(** A [for] loop whose body may raise: the state is threaded through the
    items from left to right, and the first exception ends the loop. *)
Fixpoint for_each {A S : Type} (items : list A) (body : S → A → option S)
    (s : S) : option S :=
  match items with
  | [] => Some s
  | x :: rest => s' ← body s x; for_each rest body s'
  end.

(** [sub in s] for strings. *)
Definition str_contains (s sub : string) : bool :=
  if String.index 0 sub s is Some _ then true else false.

(** [s.index(sub)]; [ValueError] when [sub] does not occur. *)
Definition str_index (s sub : string) : option nat := String.index 0 sub s.

(** [s[j]] for [j >= 0], a string of one character; [IndexError] past the
    end. *)
Definition str_at (s : string) (j : nat) : option string :=
  c ← String.get j s; Some (String c EmptyString).

(** [n * s]. *)
Fixpoint str_repeat (n : nat) (s : string) : string :=
  match n with
  | O => EmptyString
  | S n' => String.append s (str_repeat n' s)
  end.

(** [l.remove(x)]: drops the first occurrence; [ValueError] when there is
    none. *)
Fixpoint list_remove (l : list nat) (x : nat) : option (list nat) :=
  match l with
  | [] => None
  | y :: rest =>
      if decide (y = x) then Some rest
      else rest' ← list_remove rest x; Some (y :: rest')
  end.

End Py.

(** ** Python [dict]: keys are unique and are traversed in insertion order;
    assigning to a key that is present replaces its value in place. *)

Module Dict.
Section Dict.
Context {K V : Type} `{EqDecision K}.

(** [d[k]]; [KeyError] when [k] is absent. *)
Fixpoint get (d : list (K * V)) (k : K) : option V :=
  match d with
  | [] => None
  | (k', v) :: rest => if decide (k = k') then Some v else get rest k
  end.

(** [d[k] = v]. *)
Fixpoint set (d : list (K * V)) (k : K) (v : V) : list (K * V) :=
  match d with
  | [] => [(k, v)]
  | (k', v') :: rest =>
      if decide (k = k') then (k', v) :: rest else (k', v') :: set rest k v
  end.

(** [list(d.keys())] and [list(d.values())]. *)
Definition keys (d : list (K * V)) : list K := map fst d.
Definition values (d : list (K * V)) : list V := map snd d.

(** [k in d.keys()]. *)
Definition mem (d : list (K * V)) (k : K) : bool :=
  if get d k is Some _ then true else false.
End Dict.
End Dict.

(** ** Data model ([utils.classes]) *)

(** [StandardCoord = Tuple[int, int, int]]. *)
Definition StandardCoord : Type := Z * Z * Z.
(** [StandardBeam = List[StandardCoord]]. *)
Definition StandardBeam : Type := list StandardCoord.
(** [NodeBeams = List[StandardBeam]]. *)
Definition NodeBeams : Type := list StandardBeam.
(** [StandardBlock = Tuple[StandardCoord, str]]. *)
Definition StandardBlock : Type := StandardCoord * string.

(** The typed data as Python values. *)
Definition coord_value (c : StandardCoord) : Py.value :=
  let '(x, y, z) := c in Py.Tuple [Py.Int x; Py.Int y; Py.Int z].
Definition beam_value (b : StandardBeam) : Py.value :=
  Py.List (map coord_value b).
Definition node_beams_value (nb : NodeBeams) : Py.value :=
  Py.List (map beam_value nb).

(** [coord in occupied], for [occupied : List[StandardCoord]]. *)
Definition coord_in_coords (coord : StandardCoord) (occupied : list StandardCoord) : bool :=
  Py.contains (map coord_value occupied) (coord_value coord).

(** [coord in all_beams], for [all_beams : List[NodeBeams]]: the elements
    compared with [coord] are the per-node lists of beams. *)
Definition coord_in_all_beams (coord : StandardCoord) (all_beams : list NodeBeams) : bool :=
  Py.contains (map node_beams_value all_beams) (coord_value coord).

(** ** [check_unobstructed] *)

(** [1 if d > 0 else -1 if d < 0 else 0]. *)
Definition unit_direction (d : Z) : Z :=
  if 0 <? d then 1 else if d <? 0 then -1 else 0.

(** The beam built by the first loop: one cell per [i] in
    [range(1, length_of_beams)]. *)
Definition synthesize_beam (source_coord target_coord : StandardCoord)
    (length_of_beams : Z) : StandardBeam :=
  let '(sx, sy, sz) := source_coord in
  let '(tx, ty, tz) := target_coord in
  let directions :=
    (unit_direction (tx - sx), unit_direction (ty - sy), unit_direction (tz - sz)) in
  let '(d0, d1, d2) := directions in
  map (fun i => let '(dx, dy, dz) := (d0 * i, d1 * i, d2 * i) in
                (sx + dx, sy + dy, sz + dz))
      (Py.range 1 length_of_beams 1).

(** The second loop: [False] at the first cell found in [occupied] or in
    [all_beams], [True] when the cells run out. *)
Fixpoint scan_beam (occupied : list StandardCoord) (all_beams : list NodeBeams)
    (cells : StandardBeam) : bool :=
  match cells with
  | [] => true
  | coord :: rest =>
      if coord_in_coords coord occupied || coord_in_all_beams coord all_beams
      then false
      else scan_beam occupied all_beams rest
  end.

Definition check_unobstructed (source_coord target_coord : StandardCoord)
    (occupied : list StandardCoord) (all_beams : list NodeBeams)
    (length_of_beams : Z) : bool * StandardBeam :=
  let single_beam_for_exit := synthesize_beam source_coord target_coord length_of_beams in
  match occupied with
  | [] => (true, single_beam_for_exit)
  | _ :: _ => (scan_beam occupied all_beams single_beam_for_exit, single_beam_for_exit)
  end.

(** ** [is_move_allowed] *)

Definition manhattan (a b : StandardCoord) : Z :=
  let '(ax, ay, az) := a in
  let '(bx, b_y, bz) := b in
  Z.abs (bx - ax) + Z.abs (b_y - ay) + Z.abs (bz - az).

Definition is_move_allowed (source_coords next_coords : StandardCoord) : bool :=
  let '(sx, sy, sz) := source_coords in
  let '(nx, ny, nz) := next_coords in
  let manhattan_distance := Z.abs (nx - sx) + Z.abs (ny - sy) + Z.abs (nz - sz) in
  manhattan_distance mod 3 =? 0.

(** ** [generate_tentative_target_positions] *)

(** [coords not in occupied_coords]. *)
Definition not_occupied (occupied_coords : list StandardCoord) (coords : StandardCoord) : bool :=
  negb (coord_in_coords coords occupied_coords).

(** [targets.add(c)] on a [set] of coordinates. *)
Definition set_add (targets : gset StandardCoord) (c : StandardCoord) : gset StandardCoord :=
  targets ∪ {[ c ]}.

(** [[coords for coords in targets if coords not in occupied_coords]] for a
    [set]; the order in which a set is traversed is not fixed by Python. *)
Definition free_targets_of_set (targets : gset StandardCoord)
    (occupied_coords : list StandardCoord) : list StandardCoord :=
  List.filter (not_occupied occupied_coords) (elements targets).

(** The six single moves, in the order of the source. *)
Definition single_moves (sx sy sz : Z) : list StandardCoord :=
  [ (sx + 3, sy, sz); (sx - 3, sy, sz); (sx, sy + 3, sz);
    (sx, sy - 3, sz); (sx, sy, sz + 3); (sx, sy, sz - 3) ].

(** The loops of the [step == 6] branch.  The two inner double loops sit
    inside the outer loop on [dx] (the second one re-binds [dx]), as in the
    source. *)
Definition double_moves (sx sy sz : Z) : gset StandardCoord :=
  foldl (fun targets dx =>
    let targets :=
      foldl (fun targets dy => set_add targets (sx + dx, sy + dy, sz))
            targets [-3; 3] in
    let targets :=
      foldl (fun targets dx =>
        foldl (fun targets dz => set_add targets (sx + dx, sy, sz + dz))
              targets [-3; 3])
            targets [-3; 3] in
    foldl (fun targets dy =>
      foldl (fun targets dz => set_add targets (sx, sy + dy, sz + dz))
            targets [-3; 3])
          targets [-3; 3])
    ∅ [-3; 3].

(** The loops of the [step == 9] branch. *)
Definition triple_moves (sx sy sz : Z) : gset StandardCoord :=
  foldl (fun targets dx =>
    foldl (fun targets dy =>
      foldl (fun targets dz =>
        if Z.abs dx + Z.abs dy + Z.abs dz =? 9
        then set_add targets (sx + dx, sy + dy, sz + dz)
        else targets)
        targets [-3; 3])
      targets [-3; 3])
    ∅ [-3; 3].

(** [random.choice(seq)] is [seq[i]] for a random [i] below [len(seq)], and
    raises [IndexError] on an empty sequence.  The random source is a stream
    of natural numbers; the draw [d] selects the index [d mod len(seq)], so
    that every index can be selected. *)
Definition choice (d : nat) (seq : list Z) : option Z :=
  seq !! (d mod length seq)%nat.

(** The variables of the [while] loop, with the number of random draws made
    so far. *)
Record search_state : Type := SearchState {
  valid_targets : gset StandardCoord;
  attempts : Z;
  draws : nat
}.

Section RandomSearch.

(** The random source. *)
Variable rnd : nat → nat.
Variables sx sy sz step : Z.
Variable occupied_coords : list StandardCoord.

(** [if abs(mx) + abs(my) + abs(mz) == step and (cx, cy, cz) not in
    occupied_coords: valid_targets.add((cx, cy, cz))]. *)
Definition add_if_valid (valid : gset StandardCoord) (m : Z * Z * Z) : gset StandardCoord :=
  let '(mx, my, mz) := m in
  let '(cx, cy, cz) := (sx + mx, sy + my, sz + mz) in
  if (Z.abs mx + Z.abs my + Z.abs mz =? step) && not_occupied occupied_coords (cx, cy, cz)
  then set_add valid (cx, cy, cz)
  else valid.

(** One pass through the body of the [while] loop. *)
Definition attempt (st : search_state) : option search_state :=
  let remaining_steps := step in
  move_x ← choice (rnd (draws st)) (Py.range (- remaining_steps) (remaining_steps + 1) 3);
  let current_x := sx + move_x in
  let remaining_steps := remaining_steps - Z.abs move_x in
  move_y ← choice (rnd (S (draws st))) (Py.range (- remaining_steps) (remaining_steps + 1) 3);
  let current_y := sy + move_y in
  let remaining_steps := remaining_steps - Z.abs move_y in
  let move_z := remaining_steps in
  let current_z := sz + move_z in
  let valid :=
    if (Z.abs move_x + Z.abs move_y + Z.abs move_z =? step)
       && not_occupied occupied_coords (current_x, current_y, current_z)
    then set_add (valid_targets st) (current_x, current_y, current_z)
    else valid_targets st in
  let permutations :=
    [ (move_x, move_y, move_z); (move_x, move_z, move_y);
      (move_y, move_x, move_z); (move_y, move_z, move_x);
      (move_z, move_x, move_y); (move_z, move_y, move_x) ] in
  let valid := foldl add_if_valid valid permutations in
  Some {| valid_targets := valid; attempts := attempts st + 1; draws := S (S (draws st)) |}.

(** [len(valid_targets) < 12 and attempts < max_attempts]. *)
Definition search_continues (st : search_state) : bool :=
  (Z.of_nat (size (valid_targets st)) <? 12) && (attempts st <? 500).

(** The [while] loop; [None] when an iteration raises or when [fuel]
    iterations were not enough to leave the loop. *)
Fixpoint search_loop (fuel : nat) (st : search_state) : option search_state :=
  if search_continues st then
    match fuel with
    | O => None
    | S fuel' => st' ← attempt st; search_loop fuel' st'
    end
  else Some st.

(** The loop from [valid_targets = set()] and [attempts = 0]. *)
Definition random_search : option search_state :=
  search_loop 500 {| valid_targets := ∅; attempts := 0; draws := 0 |}.

End RandomSearch.

Definition generate_tentative_target_positions (rnd : nat → nat)
    (source_coords : StandardCoord) (step : Z)
    (occupied_coords : list StandardCoord) : option (list StandardCoord) :=
  let '(sx, sy, sz) := source_coords in
  if step =? 3 then
    Some (List.filter (not_occupied occupied_coords) (single_moves sx sy sz))
  else if step =? 6 then
    Some (free_targets_of_set (double_moves sx sy sz) occupied_coords)
  else if step =? 9 then
    Some (free_targets_of_set (triple_moves sx sy sz) occupied_coords)
  else if (9 <? step) && (step mod 3 =? 0) then
    st ← random_search rnd sx sy sz step occupied_coords;
    Some (elements (valid_targets st))
  else Some [].

(** ** [prune_all_beams] *)

(** [all([coord not in occupied_coords for coord in single_beam])]. *)
Definition beam_is_free (occupied_coords : list StandardCoord) (single_beam : StandardBeam) : bool :=
  forallb (fun b => b) (map (not_occupied occupied_coords) single_beam).

(** The body of the [try]; on lists of lists of coordinate lists nothing in
    it raises, so the [except] branch is not taken. *)
Definition prune_all_beams (all_beams : list NodeBeams)
    (occupied_coords : list StandardCoord) : list NodeBeams :=
  foldl (fun new_all_beams node_beams =>
    let new_node_beams :=
      foldl (fun new_node_beams single_beam =>
        if beam_is_free occupied_coords single_beam
        then new_node_beams ++ [single_beam]
        else new_node_beams)
        [] node_beams in
    match new_node_beams with
    | [] => new_all_beams
    | _ :: _ => new_all_beams ++ [new_node_beams]
    end)
    [] all_beams.

(** ** [build_newly_indexed_path_dict] *)

(** One value of the [edge_paths] dictionary. *)
Record EdgePath : Type := {
  src_tgt_ids : Z * Z;
  path_nodes : list StandardBlock
}.

(** The first loop.  [edge_paths] is read through [.values()] only, so the
    input is the list of its values in traversal order. *)
Definition max_endpoint_id (edge_paths : list EdgePath) : Z :=
  foldl (fun max_id edge_path =>
           Z.max (Z.max max_id (fst (src_tgt_ids edge_path)))
                 (snd (src_tgt_ids edge_path)))
        0 edge_paths.

(** The body of the second loop up to the last line: the [indexed_path] of
    one edge path and the counter after it. *)
Definition index_path (next_id : Z) (edge_path : EdgePath)
    : option (Z * list (Z * StandardBlock)) :=
  let '(start_key, end_key) := src_tgt_ids edge_path in
  let nodes_in_path := path_nodes edge_path in
  first ← nodes_in_path !! 0%nat;
  let indexed_path := Dict.set [] start_key first in
  '(indexed_path, next_id) ←
    Py.for_each (Py.range 1 (Z.of_nat (length nodes_in_path) - 1) 1)
      (fun '(indexed_path, next_id) i =>
         intermediate_node ← nodes_in_path !! Z.to_nat i;
         Some (Dict.set indexed_path next_id intermediate_node, next_id + 1))
      (indexed_path, next_id);
  indexed_path ←
    (if 1 <? Z.of_nat (length nodes_in_path)
     then final ← last nodes_in_path; Some (Dict.set indexed_path end_key final)
     else Some indexed_path);
  Some (next_id, indexed_path).

(** The body of the second loop, on the counter and [indexed_paths]: the
    last line stores the path's mapping under its pair of ids. *)
Definition index_step (state : Z * list (Z * Z * list (Z * StandardBlock)))
    (edge_path : EdgePath) : option (Z * list (Z * Z * list (Z * StandardBlock))) :=
  let '(next_id, indexed_paths) := state in
  '(next_id, indexed_path) ← index_path next_id edge_path;
  Some (next_id, Dict.set indexed_paths (src_tgt_ids edge_path) indexed_path).

(** The second loop: the counter and [indexed_paths]. *)
Definition index_paths (next_id : Z) (edge_paths : list EdgePath)
    : option (Z * list (Z * Z * list (Z * StandardBlock))) :=
  Py.for_each edge_paths index_step (next_id, []).

(** The third loop, which fills [final_edges]; the list is not read
    afterwards.  First the ids of a path are split by the parity of their
    position. *)
Definition split_step (node_ids : list Z) (state : list Z * list Z) (i : Z)
    : option (list Z * list Z) :=
  let '(block_ids, edge_ids) := state in
  node_id ← node_ids !! Z.to_nat i;
  if i mod 2 =? 0 then Some (block_ids ++ [node_id], edge_ids)
  else Some (block_ids, edge_ids ++ [node_id]).

Definition split_ids (node_ids : list Z) : option (list Z * list Z) :=
  Py.for_each (Py.range 0 (Z.of_nat (length node_ids)) 1) (split_step node_ids) ([], []).

(** The loop on [i] in [range(len(block_ids) - 1)]. *)
Definition path_edge_step (path_id_value_map : list (Z * StandardBlock))
    (block_ids edge_ids : list Z) (final_edges : list (list (Z * Z * string))) (i : Z)
    : option (list (list (Z * Z * string))) :=
  node1 ← block_ids !! Z.to_nat i;
  node2 ← block_ids !! Z.to_nat (i + 1);
  edge_id ← edge_ids !! Z.to_nat i;
  edge_node ← Dict.get path_id_value_map edge_id;
  let edge_type := snd edge_node in
  Some (final_edges ++ [[((node1, node2), edge_type)]]).

Definition final_edges_step (final_edges : list (list (Z * Z * string)))
    (entry : Z * Z * list (Z * StandardBlock)) : option (list (list (Z * Z * string))) :=
  let '(original_edge_key, path_id_value_map) := entry in
  let node_ids := Dict.keys path_id_value_map in
  '(block_ids, edge_ids) ← split_ids node_ids;
  if 2 <=? Z.of_nat (length block_ids) then
    Py.for_each (Py.range 0 (Z.of_nat (length block_ids) - 1) 1)
      (path_edge_step path_id_value_map block_ids edge_ids) final_edges
  else Some final_edges.

Definition final_edges_of (indexed_paths : list (Z * Z * list (Z * StandardBlock)))
    : option (list (list (Z * Z * string))) :=
  Py.for_each indexed_paths final_edges_step [].

(** The fourth loop: entries at even positions of each indexed path go to
    [latice_nodes], entries at odd positions to [latice_edges], keyed by the
    ids before and after them. *)
Definition lattice_entry (keys : list Z)
    (state : list (Z * StandardBlock) * list (Z * Z * string) * Z)
    (entry : Z * StandardBlock)
    : option (list (Z * StandardBlock) * list (Z * Z * string) * Z) :=
  let '(latice_nodes, latice_edges, i) := state in
  let '(node_key, node_info) := entry in
  if i mod 2 =? 0 then
    Some (Dict.set latice_nodes node_key node_info, latice_edges, i + 1)
  else
    before ← keys !! Z.to_nat (i - 1);
    after ← keys !! Z.to_nat (i + 1);
    let edge_key := (before, after) in
    let edge_type := snd node_info in
    Some (latice_nodes, Dict.set latice_edges edge_key edge_type, i + 1).

Definition lattice_item (state : list (Z * StandardBlock) * list (Z * Z * string))
    (item : list (Z * StandardBlock))
    : option (list (Z * StandardBlock) * list (Z * Z * string)) :=
  let '(latice_nodes, latice_edges) := state in
  let keys := Dict.keys item in
  '(latice_nodes, latice_edges, _) ←
    Py.for_each item (lattice_entry keys) (latice_nodes, latice_edges, 0);
  Some (latice_nodes, latice_edges).

Definition lattice_of (indexed_paths : list (Z * Z * list (Z * StandardBlock)))
    : option (list (Z * StandardBlock) * list (Z * Z * string)) :=
  Py.for_each (Dict.values indexed_paths) lattice_item ([], []).

Definition build_newly_indexed_path_dict (edge_paths : list EdgePath)
    : option (list (Z * StandardBlock) * list (Z * Z * string)) :=
  let max_id := max_endpoint_id edge_paths in
  let next_id := max_id + 1 in
  '(_, indexed_paths) ← index_paths next_id edge_paths;
  _ ← final_edges_of indexed_paths;
  lattice_of indexed_paths.

(** ** [rotate_o_types] *)

(** [np.eye(3, dtype=int)]. *)
Definition eye3 : list (list Z) := [[1; 0; 0]; [0; 1; 0]; [0; 0; 1]].

(** [enumerate(row)]. *)
Definition enumerate {A : Type} (row : list A) : list (nat * A) :=
  zip (seq 0 (length row)) row.

(** The value of [pipe_type.replace("h", "")] is dropped in the source, so
    [pipe_type] keeps its marker through the function. *)
Definition rotate_o_types (pipe_type : string) : option string :=
  let h_flag := Py.str_contains pipe_type "h" in
  let available_indexes := [0; 1; 2]%nat in
  o_index ← Py.str_index pipe_type "o";
  available_indexes ← Py.list_remove available_indexes o_index;
  row_o ← eye3 !! o_index;
  key0 ← available_indexes !! 0%nat;
  row0 ← (i ← available_indexes !! 1%nat; eye3 !! i);
  key1 ← available_indexes !! 1%nat;
  row1 ← (i ← available_indexes !! 0%nat; eye3 !! i);
  let new_matrix := Dict.set (Dict.set (Dict.set [] o_index row_o) key0 row0) key1 row1 in
  m0 ← Dict.get new_matrix 0%nat;
  m1 ← Dict.get new_matrix 1%nat;
  m2 ← Dict.get new_matrix 2%nat;
  let rotation_matrix := [m0; m1; m2] in
  rotated_name ←
    Py.for_each rotation_matrix
      (fun rotated_name row =>
         entry ←
           Py.for_each (enumerate row)
             (fun entry '(j, element) =>
                c ← Py.str_at pipe_type j;
                Some (String.append entry (Py.str_repeat (Z.abs_nat element) c)))
             EmptyString;
         Some (String.append rotated_name entry))
      EmptyString;
  Some (if h_flag then String.append rotated_name "h" else rotated_name).

(** ** [adjust_hadamards_direction] *)

Definition hdm_equivalences : list (string * string) :=
  [("zxoh", "xzoh"); ("xozh", "zoxh"); ("oxzh", "ozxh")]%string.

(** [{value: key for key, value in hdm_equivalences.items()}]. *)
Definition inv_equivalences : list (string * string) :=
  foldl (fun d '(key, value) => Dict.set d value key) [] hdm_equivalences.

Definition adjust_hadamards_direction (pipe_type : string) : option string :=
  if Dict.mem hdm_equivalences pipe_type
  then Dict.get hdm_equivalences pipe_type
  else Dict.get inv_equivalences pipe_type.

(** ** Auxiliary definitions used in the statements and proofs *)

(** The beams of one node that survive a pruning, and the node's entry in
    the result: dropped when no beam survives. *)
Definition surviving_beams (occupied_coords : list StandardCoord)
    (node_beams : NodeBeams) : NodeBeams :=
  List.filter (beam_is_free occupied_coords) node_beams.

Definition surviving_node (occupied_coords : list StandardCoord)
    (node_beams : NodeBeams) : option NodeBeams :=
  match surviving_beams occupied_coords node_beams with
  | [] => None
  | kept => Some kept
  end.

(** The six kinds of the Hadamard table: three keys and three values. *)
Definition hadamard_kinds : list string :=
  ["zxoh"; "xzoh"; "xozh"; "zoxh"; "oxzh"; "ozxh"]%string.

(** A kind with one exit marker: three axis characters of which exactly one
    is ['o'], alone or followed by the Hadamard marker ['h'].  The marker
    is not an axis character. *)
Definition one_exit_marker (a b c : ascii) : Prop :=
  count_occ ascii_dec [a; b; c] "o"%char = 1%nat.



(** The three axis characters with the two axes other than [o_index]
    exchanged. *)
Definition swap_other_axes (o_index : nat) (a b c : ascii) : string :=
  match o_index with
  | 0%nat => String a (String c (String b EmptyString))
  | 1%nat => String c (String b (String a EmptyString))
  | _ => String b (String a (String c EmptyString))
  end.

(** [target] is [source] moved by [3] or [-3] along exactly two axes. *)
Definition two_axis_move (source target : StandardCoord) : Prop :=
  let '(sx, sy, sz) := source in
  ∃ d1 d2 : Z, (d1 = -3 ∨ d1 = 3) ∧ (d2 = -3 ∨ d2 = 3) ∧
    (target = (sx + d1, sy + d2, sz) ∨ target = (sx + d1, sy, sz + d2)
     ∨ target = (sx, sy + d1, sz + d2)).

(** The twelve double moves, listed. *)
Definition double_moves_list (sx sy sz : Z) : list StandardCoord :=
  [ (sx - 3, sy - 3, sz); (sx - 3, sy + 3, sz); (sx + 3, sy - 3, sz); (sx + 3, sy + 3, sz);
    (sx - 3, sy, sz - 3); (sx - 3, sy, sz + 3); (sx + 3, sy, sz - 3); (sx + 3, sy, sz + 3);
    (sx, sy - 3, sz - 3); (sx, sy - 3, sz + 3); (sx, sy + 3, sz - 3); (sx, sy + 3, sz + 3) ].

(** A coordinate that the random search may keep: at Manhattan distance
    [step] from the source and not occupied. *)
Definition valid_target (source : StandardCoord) (step : Z)
    (occupied_coords : list StandardCoord) (c : StandardCoord) : Prop :=
  manhattan source c = step ∧ c ∉ occupied_coords.

(** Random draws under which the search at distance [12] keeps six, then
    three, then six coordinates. *)
Definition draws_6_3_6 (n : nat) : nat :=
  match n with
  | 0 => 4 | 1 => 5 | 2 => 5 | 3 => 4 | 4 => 4 | 5 => 3 | _ => 0
  end%nat.

(** Random draws under which, with [(0, 3, 9)] occupied, the search at
    distance [12] keeps five, then six, then six coordinates. *)
Definition draws_5_6_6 (n : nat) : nat :=
  match n with
  | 0 => 4 | 1 => 5 | 2 => 4 | 3 => 3 | 4 => 1 | 5 => 1 | _ => 0
  end%nat.

(** The invariant of the [while] loop of the random search: attempts are
    counted from [0] up to [500], at most [17] coordinates are held, and
    every one of them is a valid target. *)
Definition search_invariant (source : StandardCoord) (step : Z)
    (occupied_coords : list StandardCoord) (st : search_state) : Prop :=
  0 ≤ attempts st ≤ 500
  ∧ (size (valid_targets st) ≤ 17)%nat
  ∧ ∀ c, c ∈ valid_targets st → valid_target source step occupied_coords c.

(** [nodes[1:-1]]: the elements strictly between the first and the last. *)
Definition intermediate_nodes {A : Type} (nodes : list A) : list A :=
  take (length nodes - 2) (drop 1 nodes).

(** [n] consecutive ids from [next_id] on. *)
Definition fresh_ids (next_id : Z) (n : nat) : list Z :=
  (λ k : nat, next_id + Z.of_nat k) <$> seq 0 n.

(** The number of intermediate elements over a list of edge paths. *)
Definition total_intermediates (edge_paths : list EdgePath) : nat :=
  sum_list_with (λ edge_path, length (intermediate_nodes (path_nodes edge_path)))
    edge_paths.

(** The mapping of one path in the words of the specification: the start
    id on the first element, fresh ids from [next_id] on for the
    intermediate elements, the end id on the last element. *)
Definition assigned_path (next_id : Z) (edge_path : EdgePath) : list (Z * StandardBlock) :=
  let '(start_key, end_key) := src_tgt_ids edge_path in
  let nodes := path_nodes edge_path in
  zip (start_key :: fresh_ids next_id (length (intermediate_nodes nodes)) ++ [end_key])
      nodes.

(** The mappings of all paths, the counter running through them. *)
Fixpoint assigned_paths (next_id : Z) (edge_paths : list EdgePath)
    : list (Z * Z * list (Z * StandardBlock)) :=
  match edge_paths with
  | [] => []
  | edge_path :: rest =>
      (src_tgt_ids edge_path, assigned_path next_id edge_path)
      :: assigned_paths
           (next_id + Z.of_nat (length (intermediate_nodes (path_nodes edge_path))))
           rest
  end.

(** The entries at even positions of a list: the blocks of a path. *)
Fixpoint even_entries {A : Type} (l : list A) : list A :=
  match l with
  | [] => []
  | x :: rest =>
      x :: match rest with
           | [] => []
           | _ :: rest' => even_entries rest'
           end
  end.

(** The edges read from a path's mapping: one per pipe that stands between
    two blocks, keyed by the ids of the two blocks. *)
Fixpoint pipe_entries (l : list (Z * StandardBlock)) : list (Z * Z * string) :=
  match l with
  | [] => []
  | b1 :: rest =>
      match rest with
      | [] => []
      | p :: rest' =>
          match rest' with
          | [] => []
          | b2 :: _ => ((b1.1, b2.1), snd p.2) :: pipe_entries rest'
          end
      end
  end.

(** Writing a list of entries into a dictionary, in order. *)
Definition write_all {K V : Type} `{EqDecision K} (d l : list (K * V)) : list (K * V) :=
  foldl (λ d e, Dict.set d e.1 e.2) d l.

(** A mapping that the fourth loop walks to its end: the last position is
    even. *)
Definition walkable (item : list (Z * StandardBlock)) : bool :=
  match item with
  | [] => true
  | _ :: _ => Nat.odd (length item)
  end.

(** Sample blocks and pipes, and sample inputs of the re-indexing. *)
Definition block_a : StandardBlock := ((0, 0, 0), "xxz"%string).
Definition pipe_ab : StandardBlock := ((0, 0, 1), "zxo"%string).
Definition block_b : StandardBlock := ((0, 0, 3), "xzz"%string).
Definition pipe_bc : StandardBlock := ((0, 1, 3), "xoz"%string).
Definition block_c : StandardBlock := ((0, 3, 3), "zzx"%string).

(** Two paths that meet in the node [1]. *)
Definition two_paths : list EdgePath :=
  [ {| src_tgt_ids := (0, 1); path_nodes := [block_a; pipe_ab; block_b] |};
    {| src_tgt_ids := (1, 2);
       path_nodes := [block_b; pipe_bc; block_c; pipe_bc; block_b] |} ].

(** A path of one element. *)
Definition one_element_path : EdgePath :=
  {| src_tgt_ids := (0, 1); path_nodes := [block_a] |}.

(** Two paths under the same pair of ids. *)
Definition long_path_0_1 : EdgePath :=
  {| src_tgt_ids := (0, 1);
     path_nodes := [block_a; pipe_ab; block_c; pipe_bc; block_b] |}.
Definition short_path_0_1 : EdgePath :=
  {| src_tgt_ids := (0, 1); path_nodes := [block_a; pipe_ab; block_b] |}.


(** ** [check_is_exit] *)

(** Kinds are ASCII strings, one [ascii] per character.  [c.lower()] for
    one character of an ASCII string: the letters ['A'] to ['Z'] move to
    ['a'] to ['z'], the other characters stay. *)
Definition ascii_lower (c : ascii) : ascii :=
  let n := nat_of_ascii c in
  if (65 <=? n)%nat && (n <=? 90)%nat then ascii_of_nat (n + 32) else c.

(** [s.lower()] on an ASCII string: character by character, so the length
    stays.  On other strings [str.lower()] follows the Unicode tables, looks
    at the neighbours of a character and may change the number of
    characters; [str_lower] is [str.lower()] on the strings of [ascii_only]
    and no further. *)
Fixpoint str_lower (s : string) : string :=
  match s with
  | EmptyString => EmptyString
  | String c rest => String (ascii_lower c) (str_lower rest)
  end.

(** Every character of the string is ASCII: its code is below [128]. *)
Fixpoint ascii_only (s : string) : bool :=
  match s with
  | EmptyString => true
  | String c rest => (nat_of_ascii c <? 128)%nat && ascii_only rest
  end.

(** A kind as [check_is_exit] takes it, [None] or an ASCII string. *)
Definition ascii_kind (source_kind : option string) : Prop :=
  match source_kind with
  | Some kind => ascii_only kind = true
  | None => True
  end.

(** The loop that looks for the first axis with a displacement, with its
    [break]; [displacement_axis_index] starts at [-1]. *)
Fixpoint first_displacement (displacements : list (nat * Z)) : Z :=
  match displacements with
  | [] => -1
  | (i, disp) :: rest => if disp =? 0 then first_displacement rest else Z.of_nat i
  end.

Definition check_is_exit (source_coord : StandardCoord) (source_kind : option string)
    (target_coord : StandardCoord) : option bool :=
  let source_kind :=
    match source_kind with
    | Some kind => String.substring 0 3 (str_lower kind)
    | None => EmptyString
    end in
  c0 ← String.get 0 source_kind;
  c1 ← String.get 1 source_kind;
  c2 ← String.get 2 source_kind;
  let kind_3D := [c0; c1; c2] in
  exit_marker ←
    (if bool_decide ("o"%char ∈ kind_3D) then Some "o"%char
     else head (List.filter (λ i, (count_occ ascii_dec kind_3D i =? 2)%nat)
                  (elements (list_to_set kind_3D : gset ascii))));
  let valid_exit_indices :=
    (λ e, Z.of_nat e.1) <$> List.filter (λ e, bool_decide (e.2 = exit_marker))
                               (enumerate kind_3D) in
  let '(sx, sy, sz) := source_coord in
  let '(tx, ty, tz) := target_coord in
  let displacements := [tx - sx; ty - sy; tz - sz] in
  let displacement_axis_index := first_displacement (enumerate displacements) in
  if negb (displacement_axis_index =? -1)
     && bool_decide (displacement_axis_index ∈ valid_exit_indices)
  then Some true else Some false.

(** ** [check_for_exits] *)

Definition directional_array : list (Z * Z * Z) :=
  [(1, 0, 0); (-1, 0, 0); (0, 1, 0); (0, -1, 0); (0, 0, 1); (0, 0, -1)].

(** The body of the loop on the six directions. *)
Definition exit_step (node_coords : StandardCoord) (node_kind : option string)
    (occupied : list StandardCoord) (all_beams : list NodeBeams) (length_of_beams : Z)
    (state : Z * NodeBeams) (d : Z * Z * Z) : option (Z * NodeBeams) :=
  let '(unobstructed_exits_n, node_beams) := state in
  let '(x, y, z) := node_coords in
  let '(d0, d1, d2) := d in
  let target_coords := (x + d0, y + d1, z + d2) in
  is_exit ← check_is_exit node_coords node_kind target_coords;
  if is_exit : bool then
    let '(is_unobstructed, exit_beam) :=
      check_unobstructed node_coords target_coords occupied all_beams length_of_beams in
    if is_unobstructed : bool
    then Some (unobstructed_exits_n + 1, node_beams ++ [exit_beam])
    else Some (unobstructed_exits_n, node_beams)
  else Some (unobstructed_exits_n, node_beams).

Definition check_for_exits (node_coords : StandardCoord) (node_kind : option string)
    (occupied : list StandardCoord) (all_beams : list NodeBeams) (length_of_beams : Z)
    : option (Z * NodeBeams) :=
  Py.for_each directional_array
    (exit_step node_coords node_kind occupied all_beams length_of_beams) (0, []).

(** The axis characters that [check_is_exit] reads from a kind: the first
    three characters, in lower case. *)
Definition kind_axes (source_kind : option string) : option (ascii * ascii * ascii) :=
  match source_kind with
  | Some kind =>
      match str_lower kind with
      | String a (String b (String c _)) => Some (a, b, c)
      | _ => None
      end
  | None => None
  end.

(** Exactly two of the three characters are equal. *)
Definition has_doubled (a b c : ascii) : Prop :=
  (a = b ∧ b ≠ c) ∨ (a = c ∧ a ≠ b) ∨ (b = c ∧ a ≠ b).

(** The first axis along which two coordinates differ. *)
Definition first_displaced_axis (source target : StandardCoord) : option nat :=
  let '(sx, sy, sz) := source in
  let '(tx, ty, tz) := target in
  if decide (tx ≠ sx) then Some 0%nat
  else if decide (ty ≠ sy) then Some 1%nat
  else if decide (tz ≠ sz) then Some 2%nat
  else None.
(** The marker that [check_is_exit] settles on for three axis characters:
    ['o'] when it is among them, else the character that [set(kind_3D)]
    yields first among those counted twice; [IndexError] when there is
    none. *)
Definition chosen_marker (a b c : ascii) : option ascii :=
  if bool_decide ("o"%char ∈ [a; b; c]) then Some "o"%char
  else head (List.filter (λ i, (count_occ ascii_dec [a; b; c] i =? 2)%nat)
               (elements (list_to_set [a; b; c] : gset ascii))).
(** The kinds on which [check_is_exit] raises: no kind, fewer than three
    characters, or three axis characters with no ['o'] and no character on
    exactly two axes. *)
Definition malformed_kind (kind : option string) : Prop :=
  kind = None
  ∨ (∃ k, kind = Some k ∧ (String.length k < 3)%nat)
  ∨ (∃ a b c, kind_axes kind = Some (a, b, c)
              ∧ ("o"%char ∉ [a; b; c]) ∧ ¬ has_doubled a b c).

(** [target] is [source] moved by [3] or [-3] along exactly one axis. *)
Definition one_axis_move (source target : StandardCoord) : Prop :=
  let '(sx, sy, sz) := source in
  ∃ d : Z, (d = -3 ∨ d = 3) ∧
    (target = (sx + d, sy, sz) ∨ target = (sx, sy + d, sz) ∨ target = (sx, sy, sz + d)).

(** [target] is [source] moved by [3] or [-3] along each of the three
    axes. *)
Definition three_axis_move (source target : StandardCoord) : Prop :=
  let '(sx, sy, sz) := source in
  ∃ d1 d2 d3 : Z, (d1 = -3 ∨ d1 = 3) ∧ (d2 = -3 ∨ d2 = 3) ∧ (d3 = -3 ∨ d3 = 3) ∧
    target = (sx + d1, sy + d2, sz + d3).

(** The eight triple moves, listed. *)
Definition triple_moves_list (sx sy sz : Z) : list StandardCoord :=
  [ (sx - 3, sy - 3, sz - 3); (sx - 3, sy - 3, sz + 3);
    (sx - 3, sy + 3, sz - 3); (sx - 3, sy + 3, sz + 3);
    (sx + 3, sy - 3, sz - 3); (sx + 3, sy - 3, sz + 3);
    (sx + 3, sy + 3, sz - 3); (sx + 3, sy + 3, sz + 3) ].

(** [target] lies on the lattice of spacing [3] through [source]. *)
Definition on_lattice (source target : StandardCoord) : Prop :=
  let '(sx, sy, sz) := source in
  let '(tx, ty, tz) := target in
  (3 | tx - sx) ∧ (3 | ty - sy) ∧ (3 | tz - sz).

(** The position of the first ['o'] among three axis characters. *)
Definition first_o (a b c : ascii) : option nat :=
  if decide (a = "o"%char) then Some 0%nat
  else if decide (b = "o"%char) then Some 1%nat
  else if decide (c = "o"%char) then Some 2%nat
  else None.

(** The marker that a rotation leaves behind the axis characters. *)
Definition h_suffix (pipe_type : string) : string :=
  if Py.str_contains pipe_type "h" then "h"%string else EmptyString.

(** * Properties *)

Section PyFacts.

Lemma coord_value_eq (a b : StandardCoord) :
  Py.eq (coord_value a) (coord_value b) = true ↔ a = b.
Proof.
  destruct a as [[ax ay] az], b as [[bx b_y] bz]; simpl.
  rewrite !andb_true_r, !andb_true_iff, !Z.eqb_eq.
  split; [intros [-> [-> ->]]; reflexivity | intros [= -> -> ->]; auto].
Qed.

(** A coordinate is a tuple, a per-node beam collection is a list. *)
Lemma node_beams_value_neq_coord (nb : NodeBeams) (c : StandardCoord) :
  Py.eq (node_beams_value nb) (coord_value c) = false.
Proof. destruct c as [[x y] z]; reflexivity. Qed.

Lemma coord_in_coords_spec (c : StandardCoord) (occupied : list StandardCoord) :
  coord_in_coords c occupied = true ↔ c ∈ occupied.
Proof.
  unfold coord_in_coords, Py.contains.
  rewrite existsb_exists. split.
  - intros (v & Hv & Heq). apply in_map_iff in Hv as (c' & <- & Hin).
    apply coord_value_eq in Heq as ->. by apply list_elem_of_In.
  - intros Hin. exists (coord_value c). split.
    + apply in_map. by apply list_elem_of_In.
    + by apply coord_value_eq.
Qed.

Lemma coord_in_all_beams_false (c : StandardCoord) (all_beams : list NodeBeams) :
  coord_in_all_beams c all_beams = false.
Proof.
  unfold coord_in_all_beams, Py.contains.
  induction all_beams as [|nb rest IH]; [done|].
  cbn [map existsb]. by rewrite node_beams_value_neq_coord, IH.
Qed.

End PyFacts.

(** ** Obstruction checks *)

Section Obstruction.

Lemma range_from_1 (n : Z) :
  Py.range 1 n 1 = map (fun k => 1 + Z.of_nat k) (seq 0 (Z.to_nat (n - 1))).
Proof.
  unfold Py.range. rewrite Z.div_1_r.
  replace (n - 1 + 1 - 1) with (n - 1) by lia.
  apply map_ext. intros k. lia.
Qed.

(** The beam holds the cells [source + i * direction] for
    [i = 1 .. length_of_beams - 1], in this order. *)
Lemma synthesize_beam_cells sx sy sz tx ty tz (n : Z) (c : StandardCoord) :
  c ∈ synthesize_beam (sx, sy, sz) (tx, ty, tz) n ↔
  ∃ i, 1 ≤ i ≤ n - 1 ∧
       c = (sx + unit_direction (tx - sx) * i,
            sy + unit_direction (ty - sy) * i,
            sz + unit_direction (tz - sz) * i).
Proof.
  unfold synthesize_beam. rewrite range_from_1, list_elem_of_fmap. split.
  - intros (i & -> & Hi). apply list_elem_of_fmap in Hi as (k & -> & Hk).
    apply elem_of_seq in Hk. exists (1 + Z.of_nat k). split; [lia | done].
  - intros (i & Hi & ->). exists i. split; [done|].
    apply list_elem_of_fmap. exists (Z.to_nat (i - 1)). split; [lia|].
    apply elem_of_seq. lia.
Qed.

Lemma synthesize_beam_length s t (n : Z) :
  length (synthesize_beam s t n) = Z.to_nat (n - 1).
Proof.
  destruct s as [[sx sy] sz], t as [[tx ty] tz]. unfold synthesize_beam.
  by rewrite range_from_1, !length_map, length_seq.
Qed.

(** On a list of per-node beam collections the test on [all_beams] never
    fires: the scan only sees [occupied]. *)
Lemma scan_beam_spec occupied all_beams cells :
  scan_beam occupied all_beams cells = false ↔ ∃ c, c ∈ cells ∧ c ∈ occupied.
Proof.
  induction cells as [|c rest IH]; simpl.
  - split; [done | intros (c & Hc & _); by apply elem_of_nil in Hc].
  - rewrite coord_in_all_beams_false, orb_false_r.
    destruct (coord_in_coords c occupied) eqn:Hc.
    + apply coord_in_coords_spec in Hc. split; [|done].
      intros _. exists c. split; [left | done].
    + rewrite IH. split.
      * intros (c' & Hin & Hocc). exists c'. split; [by right | done].
      * intros (c' & Hin & Hocc). apply elem_of_cons in Hin as [-> | Hin].
        -- apply coord_in_coords_spec in Hocc. congruence.
        -- by exists c'.
Qed.

(** What the code decides when [occupied] is not empty. *)
Lemma check_unobstructed_verdict s t occupied all_beams n :
  occupied ≠ [] →
  (check_unobstructed s t occupied all_beams n).1 = false ↔
  ∃ c, c ∈ synthesize_beam s t n ∧ c ∈ occupied.
Proof.
  intros Hne. unfold check_unobstructed.
  destruct occupied as [|o rest]; [done|]. simpl. apply scan_beam_spec.
Qed.

Lemma check_unobstructed_beam s t occupied all_beams n :
  (check_unobstructed s t occupied all_beams n).2 = synthesize_beam s t n.
Proof. unfold check_unobstructed. by destruct occupied. Qed.

(** C1 (the code departs from the claim): with [occupied] not empty, a
    synthesized cell that lies inside a beam of [all_beams] and not in
    [occupied] does not obstruct.  Source [(0,0,0)], target [(1,0,0)],
    beams of length [2]: the only cell [(1,0,0)] is in the beam
    [[(1,0,0)]] of [all_beams], and the verdict is still [True]; the
    synthesized beam is returned. *)
Theorem check_unobstructed_misses_beams :
  let all_beams : list NodeBeams := [[[(1, 0, 0)]]] in
  check_unobstructed (0, 0, 0) (1, 0, 0) [(9, 9, 9)] all_beams 2
    = (true, [(1, 0, 0)])
  ∧ (∃ node_beams single_beam,
        node_beams ∈ all_beams ∧ single_beam ∈ node_beams
        ∧ (1, 0, 0) ∈ single_beam
        ∧ (1, 0, 0) ∈ synthesize_beam (0, 0, 0) (1, 0, 0) 2).
Proof.
  split; [reflexivity|].
  exists [[(1, 0, 0)]], [(1, 0, 0)].
  repeat split; apply list_elem_of_In; simpl; auto.
Qed.

(** C5: with an empty [occupied] list the verdict is [True], whatever the
    source, the target, the beams in [all_beams] and the beam length. *)
Theorem check_unobstructed_empty_occupied
    (source_coord target_coord : StandardCoord)
    (all_beams : list NodeBeams) (length_of_beams : Z) :
  check_unobstructed source_coord target_coord [] all_beams length_of_beams
    = (true, synthesize_beam source_coord target_coord length_of_beams).
Proof. reflexivity. Qed.

(** The fast path is taken also when a cell of the synthesized beam lies
    inside a beam of [all_beams]. *)
Example check_unobstructed_empty_occupied_crossing :
  check_unobstructed (0, 0, 0) (1, 0, 0) [] [[[(1, 0, 0)]]] 2 = (true, [(1, 0, 0)]).
Proof. reflexivity. Qed.

End Obstruction.

(** ** Allowed moves *)

Section Moves.

Lemma is_move_allowed_manhattan s t :
  is_move_allowed s t = (manhattan s t mod 3 =? 0).
Proof. by destruct s as [[sx sy] sz], t as [[tx ty] tz]. Qed.

(** C3 as stated fails where the two coordinates are equal: the distance
    [0] is not a positive multiple of [3], and the move is allowed. *)
Lemma is_move_allowed_same_cell :
  ¬ (is_move_allowed (0, 0, 0) (0, 0, 0) = true ↔
     (0 < manhattan (0, 0, 0) (0, 0, 0) ∧ (3 | manhattan (0, 0, 0) (0, 0, 0)))).
Proof. intros [H _]. specialize (H eq_refl) as [H0 _]. vm_compute in H0. discriminate. Qed.

(** C3 (amended): [is_move_allowed] holds exactly when the Manhattan
    distance between the two coordinates is a multiple of [3], the
    distance [0] of a coordinate to itself included. *)
Theorem is_move_allowed_iff_multiple_of_3 (source target : StandardCoord) :
  is_move_allowed source target = true ↔ (3 | manhattan source target).
Proof.
  rewrite is_move_allowed_manhattan, Z.eqb_eq.
  apply Z.mod_divide. lia.
Qed.

Lemma is_move_allowed_refl (s : StandardCoord) : is_move_allowed s s = true.
Proof.
  destruct s as [[x y] z]. unfold is_move_allowed.
  replace (Z.abs (x - x) + Z.abs (y - y) + Z.abs (z - z)) with 0 by lia.
  reflexivity.
Qed.

End Moves.

(** ** Beam pruning *)

Section Pruning.

Variable occupied_coords : list StandardCoord.

Lemma inner_loop_filter (acc node_beams : NodeBeams) :
  foldl (fun new_node_beams single_beam =>
           if beam_is_free occupied_coords single_beam
           then new_node_beams ++ [single_beam]
           else new_node_beams) acc node_beams
  = acc ++ surviving_beams occupied_coords node_beams.
Proof.
  revert acc. induction node_beams as [|b rest IH]; intros acc; simpl.
  - by rewrite app_nil_r.
  - rewrite IH. unfold surviving_beams. simpl.
    destruct (beam_is_free occupied_coords b); [|done].
    by rewrite <- app_assoc.
Qed.

Lemma outer_loop_omap (acc all_beams : list NodeBeams) :
  foldl (fun new_all_beams node_beams =>
           let new_node_beams :=
             foldl (fun new_node_beams single_beam =>
                      if beam_is_free occupied_coords single_beam
                      then new_node_beams ++ [single_beam]
                      else new_node_beams) [] node_beams in
           match new_node_beams with
           | [] => new_all_beams
           | _ :: _ => new_all_beams ++ [new_node_beams]
           end) acc all_beams
  = acc ++ omap (surviving_node occupied_coords) all_beams.
Proof.
  revert acc. induction all_beams as [|nb rest IH]; intros acc; simpl.
  - by rewrite app_nil_r.
  - rewrite IH, inner_loop_filter. simpl. unfold surviving_node.
    destruct (surviving_beams occupied_coords nb); [done|].
    by rewrite <- app_assoc.
Qed.

Lemma prune_all_beams_omap (all_beams : list NodeBeams) :
  prune_all_beams all_beams occupied_coords
  = omap (surviving_node occupied_coords) all_beams.
Proof. unfold prune_all_beams. apply outer_loop_omap. Qed.

Lemma surviving_beams_idemp (node_beams : NodeBeams) :
  surviving_beams occupied_coords (surviving_beams occupied_coords node_beams)
  = surviving_beams occupied_coords node_beams.
Proof.
  unfold surviving_beams. induction node_beams as [|b rest IH]; simpl; [done|].
  destruct (beam_is_free occupied_coords b) eqn:Hb; simpl; [|done].
  by rewrite Hb, IH.
Qed.

Lemma surviving_node_fix (node_beams kept : NodeBeams) :
  surviving_node occupied_coords node_beams = Some kept →
  surviving_node occupied_coords kept = Some kept.
Proof.
  unfold surviving_node. intros H.
  destruct (surviving_beams occupied_coords node_beams) as [|b rest] eqn:Hs; [done|].
  injection H as <-. by rewrite <- Hs, surviving_beams_idemp, Hs.
Qed.

(** Every beam kept by the pruning is free of occupied cells, and no
    node is left with an empty list of beams. *)
Lemma prune_all_beams_kept (all_beams : list NodeBeams) (kept : NodeBeams) :
  kept ∈ prune_all_beams all_beams occupied_coords →
  kept ≠ [] ∧ ∀ b, b ∈ kept → ∀ c, c ∈ b → c ∉ occupied_coords.
Proof.
  rewrite prune_all_beams_omap, list_elem_of_omap.
  intros (nb & _ & Hnb). unfold surviving_node in Hnb.
  destruct (surviving_beams occupied_coords nb) as [|b0 rest] eqn:Hs; [done|].
  injection Hnb as <-. split; [done|].
  intros b Hb c Hc Hocc. rewrite <- Hs in Hb.
  apply list_elem_of_In, filter_In in Hb as [_ Hfree].
  unfold beam_is_free in Hfree. rewrite forallb_forall in Hfree.
  assert (not_occupied occupied_coords c = true) as Hc'.
  { apply Hfree, in_map. by apply list_elem_of_In. }
  unfold not_occupied in Hc'. apply coord_in_coords_spec in Hocc.
  rewrite Hocc in Hc'. discriminate Hc'.
Qed.

(** C7: pruning is idempotent: pruning the pruned collection against the
    same occupied list gives the pruned collection back. *)
Theorem prune_all_beams_idempotent (all_beams : list NodeBeams) :
  prune_all_beams (prune_all_beams all_beams occupied_coords) occupied_coords
  = prune_all_beams all_beams occupied_coords.
Proof.
  rewrite !prune_all_beams_omap.
  induction all_beams as [|nb rest IH]; [done|].
  cbn [omap list_omap].
  destruct (surviving_node occupied_coords nb) as [kept|] eqn:Hnb; [|done].
  cbn [omap list_omap].
  rewrite (surviving_node_fix _ _ Hnb). f_equal. exact IH.
Qed.

End Pruning.

(** ** Symmetry transforms *)

Section Hadamard.

Lemma hadamard_kinds_flip (kind : string) :
  kind ∈ hadamard_kinds →
  ∃ flipped, adjust_hadamards_direction kind = Some flipped
             ∧ flipped ∈ hadamard_kinds
             ∧ adjust_hadamards_direction flipped = Some kind.
Proof.
  unfold hadamard_kinds. intros H.
  repeat (apply elem_of_cons in H as [-> | H]);
    [ .. | by apply elem_of_nil in H ];
    eexists; (split; [reflexivity|]); (split; [|reflexivity]);
    apply list_elem_of_In; simpl; tauto.
Qed.

(** C8: on the six Hadamard kinds [adjust_hadamards_direction] is its own
    inverse, and on every other string it fails. *)
Theorem adjust_hadamards_direction_involution (kind : string) :
  (kind ∈ hadamard_kinds →
     adjust_hadamards_direction kind ≫= adjust_hadamards_direction = Some kind)
  ∧ (kind ∉ hadamard_kinds → adjust_hadamards_direction kind = None).
Proof.
  split.
  - intros H. destruct (hadamard_kinds_flip kind H) as (flipped & -> & _ & Hback).
    exact Hback.
  - intros H. unfold adjust_hadamards_direction, Dict.mem. simpl.
    repeat case_decide; try reflexivity; subst kind;
      exfalso; apply H, list_elem_of_In; simpl; tauto.
Qed.

Lemma adjust_hadamards_direction_involution_witness :
  adjust_hadamards_direction "zxoh" ≫= adjust_hadamards_direction = Some "zxoh"%string
  ∧ adjust_hadamards_direction "zxo" = None.
Proof.
  split.
  - apply (proj1 (adjust_hadamards_direction_involution "zxoh")).
    apply list_elem_of_In. simpl. tauto.
  - apply (proj2 (adjust_hadamards_direction_involution "zxo")).
    intros H. apply list_elem_of_In in H. simpl in H.
    repeat destruct H as [H | H]; try discriminate H. exact H.
Defined.

End Hadamard.

Section Rotation.

Local Open Scope char_scope.

#[local] Arguments ascii_dec : simpl never.

Local Abbreviation kind3 a b c rest := (String a (String b (String c rest))).

(** Where [index("o")] finds the marker. *)
Lemma str_index_o_0 b c rest : Py.str_index (kind3 "o" b c rest) "o" = Some 0%nat.
Proof. reflexivity. Qed.

Lemma str_index_o_1 a c rest :
  a ≠ "o" → Py.str_index (kind3 a "o" c rest) "o" = Some 1%nat.
Proof.
  intros Ha. unfold Py.str_index. simpl.
  destruct (ascii_dec "o" a) as [<-|_]; [done | reflexivity].
Qed.

Lemma str_index_o_2 a b rest :
  a ≠ "o" → b ≠ "o" → Py.str_index (kind3 a b "o" rest) "o" = Some 2%nat.
Proof.
  intros Ha Hb. unfold Py.str_index. simpl.
  destruct (ascii_dec "o" a) as [<-|_]; [done|].
  destruct (ascii_dec "o" b) as [<-|_]; [done|].
  by destruct rest.
Qed.

Lemma one_exit_marker_cases a b c :
  one_exit_marker a b c →
  (a = "o" ∧ b ≠ "o" ∧ c ≠ "o") ∨ (a ≠ "o" ∧ b = "o" ∧ c ≠ "o")
  ∨ (a ≠ "o" ∧ b ≠ "o" ∧ c = "o").
Proof.
  unfold one_exit_marker. simpl.
  destruct (ascii_dec a "o"), (ascii_dec b "o"), (ascii_dec c "o");
    intros H; try discriminate H; tauto.
Qed.



(** One rotation: the marker stays, the other two axes are exchanged, and
    ['h'] is appended when the input holds one. *)
Lemma rotate_o_types_eval a b c rest (o_index : nat) :
  Py.str_index (kind3 a b c rest) "o" = Some o_index →
  (o_index < 3)%nat →
  rotate_o_types (kind3 a b c rest)
  = Some (String.append (swap_other_axes o_index a b c)
            (if Py.str_contains (kind3 a b c rest) "h" then "h"%string
             else EmptyString)).
Proof.
  intros Hidx Hlt. unfold rotate_o_types. rewrite Hidx.
  generalize (Py.str_contains (kind3 a b c rest) "h"). intros h_flag.
  destruct o_index as [|[|[|?]]]; [ | | | lia]; by destruct h_flag.
Qed.





(** A string of three characters that holds ['h'] among them is taken for
    a Hadamard kind, and each rotation appends a marker. *)
Example rotate_o_types_h_inside :
  rotate_o_types "hox" = Some "xohh"%string
  ∧ rotate_o_types "xohh" = Some "hoxh"%string.
Proof. split; reflexivity. Qed.

(** Outside the kinds with one marker among the first three characters
    the function raises. *)
Example rotate_o_types_no_marker :
  rotate_o_types "zxx" = None ∧ rotate_o_types "zxho" = None
  ∧ rotate_o_types "o" = None.
Proof. repeat split; reflexivity. Qed.

End Rotation.

(** ** Candidate generation: the closed forms *)

Section ClosedForms.

Lemma filter_not_occupied_nil (l : list StandardCoord) :
  List.filter (not_occupied []) l = l.
Proof. induction l as [|c l IH]; simpl; [done | by rewrite IH]. Qed.

Lemma double_moves_list_NoDup sx sy sz : NoDup (double_moves_list sx sy sz).
Proof.
  unfold double_moves_list.
  repeat (apply NoDup_cons; split;
          [ rewrite ?elem_of_cons, elem_of_nil; intros H;
            repeat (destruct H as [H | H]); try done; injection H; lia | ]).
  apply NoDup_nil_2.
Qed.

Lemma double_moves_as_list sx sy sz :
  double_moves sx sy sz = list_to_set (double_moves_list sx sy sz).
Proof.
  unfold double_moves, double_moves_list, set_add. simpl.
  replace (sx + -3) with (sx - 3) by lia.
  replace (sy + -3) with (sy - 3) by lia.
  replace (sz + -3) with (sz - 3) by lia.
  apply set_eq. intros c.
  rewrite !elem_of_union, !elem_of_singleton, elem_of_empty.
  tauto.
Qed.

Lemma double_moves_list_spec sx sy sz (c : StandardCoord) :
  c ∈ double_moves_list sx sy sz ↔ two_axis_move (sx, sy, sz) c.
Proof.
  unfold double_moves_list, two_axis_move.
  rewrite !elem_of_cons, elem_of_nil. split.
  - intros H. repeat (destruct H as [H | H]); try done; subst c;
      first [ exists (-3), (-3); split_and!; [lia | lia | ]; by eauto
            | exists (-3), 3; split_and!; [lia | lia | ]; by eauto
            | exists 3, (-3); split_and!; [lia | lia | ]; by eauto
            | exists 3, 3; split_and!; [lia | lia | ]; by eauto ].
  - intros (d1 & d2 & [-> | ->] & [-> | ->] & [-> | [-> | ->]]); tauto.
Qed.

Lemma two_axis_move_distance s c : two_axis_move s c → manhattan s c = 6.
Proof.
  destruct s as [[sx sy] sz]. unfold two_axis_move, manhattan.
  intros (d1 & d2 & H1 & H2 & [-> | [-> | ->]]); lia.
Qed.

(** C6: with step [6] and nothing occupied the result holds exactly
    twelve distinct coordinates, each at Manhattan distance [6] from the
    source, and they are the moves by [3] or [-3] along exactly two of
    the three axes. *)
Theorem double_moves_candidates (rnd : nat → nat) (source : StandardCoord) :
  ∃ targets,
    generate_tentative_target_positions rnd source 6 [] = Some targets
    ∧ length targets = 12%nat
    ∧ NoDup targets
    ∧ (∀ c, c ∈ targets → manhattan source c = 6)
    ∧ (∀ c, c ∈ targets ↔ two_axis_move source c).
Proof.
  destruct source as [[sx sy] sz].
  exists (elements (double_moves sx sy sz)).
  assert (elements (double_moves sx sy sz) ≡ₚ double_moves_list sx sy sz) as Hperm.
  { rewrite double_moves_as_list.
    apply elements_list_to_set, double_moves_list_NoDup. }
  assert (∀ c, c ∈ elements (double_moves sx sy sz) ↔ two_axis_move (sx, sy, sz) c)
    as Hmem.
  { intros c. rewrite Hperm. apply double_moves_list_spec. }
  split_and!.
  - cbn. unfold free_targets_of_set. by rewrite filter_not_occupied_nil.
  - by rewrite Hperm.
  - apply NoDup_elements.
  - intros c Hc. by apply two_axis_move_distance, Hmem.
  - exact Hmem.
Qed.

End ClosedForms.

(** ** Candidate generation: the random search *)

Section RandomSearchFacts.

Lemma range_length start stop step :
  length (Py.range start stop step) = Z.to_nat ((stop - start + step - 1) / step).
Proof. unfold Py.range. by rewrite length_map, length_seq. Qed.

Lemma range_lookup start stop step (k : nat) :
  (k < Z.to_nat ((stop - start + step - 1) / step))%nat →
  Py.range start stop step !! k = Some (start + Z.of_nat k * step).
Proof.
  intros Hk. unfold Py.range.
  rewrite list_lookup_fmap, lookup_seq_lt by done. reflexivity.
Qed.

(** [random.choice(range(-r, r + 1, 3))] for [r >= 0] does not raise and
    returns a move of absolute value at most [r]. *)
Lemma choice_symmetric_range (d : nat) (r : Z) :
  0 ≤ r → ∃ m, choice d (Py.range (- r) (r + 1) 3) = Some m ∧ Z.abs m ≤ r.
Proof.
  intros Hr. unfold choice. rewrite range_length.
  replace (r + 1 - - r + 3 - 1) with (2 * r + 3) by lia.
  pose proof (Z.mul_div_le (2 * r + 3) 3 ltac:(lia)) as Hle.
  assert (1 ≤ (2 * r + 3) / 3) as Hpos by (apply Z.div_le_lower_bound; lia).
  set (n := Z.to_nat ((2 * r + 3) / 3)) in *.
  assert (d mod n < n)%nat as Hlt by (apply Nat.mod_upper_bound; lia).
  exists (- r + Z.of_nat (d mod n) * 3). split.
  - apply range_lookup.
    replace (r + 1 - - r + 3 - 1) with (2 * r + 3) by lia. exact Hlt.
  - lia.
Qed.

End RandomSearchFacts.

Section SearchInvariant.

Variable rnd : nat → nat.
Variables sx sy sz step : Z.
Variable occupied_coords : list StandardCoord.

Local Abbreviation add := (add_if_valid sx sy sz step occupied_coords).
Local Abbreviation ok := (valid_target (sx, sy, sz) step occupied_coords).

Lemma add_if_valid_elem (valid : gset StandardCoord) (m c : Z * Z * Z) :
  c ∈ add valid m → c ∈ valid ∨ ok c.
Proof.
  destruct m as [[mx my] mz]. unfold add_if_valid, set_add.
  destruct (Z.abs mx + Z.abs my + Z.abs mz =? step) eqn:Hd; [|by left].
  destruct (not_occupied occupied_coords (sx + mx, sy + my, sz + mz)) eqn:Ho;
    [|by left].
  cbn [andb]. rewrite elem_of_union, elem_of_singleton.
  intros [Hc | ->]; [by left | right]. split.
  - unfold manhattan. lia.
  - unfold not_occupied in Ho. intros Hin.
    apply coord_in_coords_spec in Hin. by rewrite Hin in Ho.
Qed.

Lemma size_set_add (valid : gset StandardCoord) (c : StandardCoord) :
  (size (set_add valid c) ≤ S (size valid))%nat.
Proof.
  unfold set_add. rewrite size_union_alt.
  assert (size ({[c]} ∖ valid : gset StandardCoord) ≤ 1)%nat; [|lia].
  rewrite <- (size_singleton (C:=gset StandardCoord) c).
  apply subseteq_size, subseteq_difference_l. done.
Qed.

Lemma add_if_valid_size (valid : gset StandardCoord) (m : Z * Z * Z) :
  (size (add valid m) ≤ S (size valid))%nat.
Proof.
  destruct m as [[mx my] mz]. unfold add_if_valid.
  destruct (_ && _); [apply size_set_add | lia].
Qed.

Lemma add_if_valid_twice (valid : gset StandardCoord) (m : Z * Z * Z) :
  add (add valid m) m = add valid m.
Proof.
  destruct m as [[mx my] mz]. unfold add_if_valid, set_add.
  destruct (_ && _); [|done].
  by rewrite <- (assoc_L (∪)), (idemp_L (∪)).
Qed.

Lemma foldl_add_size (valid : gset StandardCoord) (moves : list (Z * Z * Z)) :
  (size (foldl add valid moves) ≤ size valid + length moves)%nat.
Proof.
  revert valid. induction moves as [|m moves IH]; intros valid; simpl; [lia|].
  etrans; [apply IH|]. pose proof (add_if_valid_size valid m). lia.
Qed.

Lemma foldl_add_elem (valid : gset StandardCoord) (moves : list (Z * Z * Z)) c :
  c ∈ foldl add valid moves → c ∈ valid ∨ ok c.
Proof.
  revert valid. induction moves as [|m moves IH]; intros valid; simpl; [by left|].
  intros Hc. apply IH in Hc as [Hc | Hc]; [|by right].
  by apply add_if_valid_elem in Hc.
Qed.

(** One pass of the loop does not raise, counts one attempt, and keeps
    at most six new coordinates, all of them valid targets. *)
Lemma attempt_spec (st : search_state) :
  0 ≤ step →
  ∃ st', attempt rnd sx sy sz step occupied_coords st = Some st'
         ∧ attempts st' = attempts st + 1
         ∧ (size (valid_targets st') ≤ size (valid_targets st) + 6)%nat
         ∧ (∀ c, c ∈ valid_targets st' → c ∈ valid_targets st ∨ ok c).
Proof.
  intros Hstep. unfold attempt.
  destruct (choice_symmetric_range (rnd (draws st)) step Hstep) as (mx & -> & Hmx).
  cbn [mbind option_bind].
  destruct (choice_symmetric_range (rnd (S (draws st))) (step - Z.abs mx))
    as (my & -> & Hmy); [lia|].
  cbn [mbind option_bind].
  eexists. split; [reflexivity|]. cbn [attempts valid_targets].
  set (mz := step - Z.abs mx - Z.abs my).
  change (if (Z.abs mx + Z.abs my + Z.abs mz =? step)
             && not_occupied occupied_coords (sx + mx, sy + my, sz + mz)
          then set_add (valid_targets st) (sx + mx, sy + my, sz + mz)
          else valid_targets st)
    with (add (valid_targets st) (mx, my, mz)).
  match goal with
  | |- context [foldl _ (add ?v ?m) (?m :: ?rest)] =>
      change (foldl add (add v m) (m :: rest)) with (foldl add (add (add v m) m) rest);
      rewrite add_if_valid_twice;
      change (foldl add (add v m) rest) with (foldl add v (m :: rest))
  end.
  split_and!; [done | apply foldl_add_size | intros c; apply foldl_add_elem].
Qed.

Lemma search_loop_spec (fuel : nat) (st : search_state) :
  0 ≤ step →
  search_invariant (sx, sy, sz) step occupied_coords st →
  500 - attempts st ≤ Z.of_nat fuel →
  ∃ st', search_loop rnd sx sy sz step occupied_coords fuel st = Some st'
         ∧ search_continues st' = false
         ∧ search_invariant (sx, sy, sz) step occupied_coords st'.
Proof.
  intros Hstep. revert st.
  induction fuel as [|fuel IH]; intros st (Hatt & Hsize & Hok) Hfuel;
    cbn [search_loop];
    destruct (search_continues st) eqn:Hcont;
    try (exists st; by split_and!).
  - unfold search_continues in Hcont. lia.
  - unfold search_continues in Hcont.
    apply andb_true_iff in Hcont as [Hlt12 Hlt500].
    destruct (attempt_spec st Hstep) as (st1 & -> & Hatt1 & Hsize1 & Hok1).
    cbn [mbind option_bind]. apply IH; [|lia].
    split_and!; [lia | lia | lia |].
    intros c Hc. destruct (Hok1 c Hc) as [Hin | Hnew]; [by apply Hok | done].
Qed.

(** C2 (amended): for a step above [9] that is a multiple of [3] the
    random search leaves its loop after at most [500] attempts, and the
    result holds at most [17] coordinates, without repetition, each at
    Manhattan distance [step] from the source and not occupied. *)
Theorem random_search_candidates :
  9 < step → step mod 3 = 0 →
  ∃ st targets,
    random_search rnd sx sy sz step occupied_coords = Some st
    ∧ search_continues st = false
    ∧ generate_tentative_target_positions rnd (sx, sy, sz) step occupied_coords
      = Some targets
    ∧ targets = elements (valid_targets st)
    ∧ 0 ≤ attempts st ≤ 500
    ∧ (length targets ≤ 17)%nat
    ∧ NoDup targets
    ∧ ∀ c, c ∈ targets → manhattan (sx, sy, sz) c = step ∧ c ∉ occupied_coords.
Proof.
  intros Hstep Hmod.
  destruct (search_loop_spec 500 {| valid_targets := ∅; attempts := 0; draws := 0 |})
    as (st & Hloop & Hend & Hatt & Hsize & Hok).
  - lia.
  - split_and!; cbn [attempts valid_targets]; [lia | lia | | ].
    + rewrite size_empty. lia.
    + intros c Hc. by apply elem_of_empty in Hc.
  - cbn [attempts]. lia.
  - exists st, (elements (valid_targets st)). split_and!; try done.
    + unfold generate_tentative_target_positions.
      destruct (step =? 3) eqn:H3; [lia|].
      destruct (step =? 6) eqn:H6; [lia|].
      destruct (step =? 9) eqn:H9; [lia|].
      destruct (9 <? step) eqn:Hlt; [|lia].
      destruct (step mod 3 =? 0) eqn:Hm; [|lia].
      cbn [andb]. unfold random_search. by rewrite Hloop.
    + lia.
    + lia.
    + apply NoDup_elements.
    + intros c Hc. apply elem_of_elements in Hc. by apply Hok.
Qed.

End SearchInvariant.

Section RandomSearchRuns.

(** C2 as stated fails on the bound [12]: the size of the set is tested
    before an attempt only, and one attempt keeps up to six coordinates.
    At distance [12] from the origin, the moves [(0, 3, 9)], [(3, 3, 6)]
    and [(0, -3, 9)] give six, three and six coordinates. *)
Lemma random_search_fifteen_candidates :
  ¬ (∀ targets,
       generate_tentative_target_positions draws_6_3_6 (0, 0, 0) 12 [] = Some targets →
       (length targets ≤ 12)%nat).
Proof.
  intros H.
  destruct (generate_tentative_target_positions draws_6_3_6 (0, 0, 0) 12 [])
    as [targets|] eqn:E; vm_compute in E; [|discriminate E].
  injection E as <-. specialize (H _ eq_refl). simpl in H. lia.
Qed.

Lemma random_search_candidates_witness :
  ∃ st targets,
    random_search (λ _, 0%nat) 0 0 0 12 [] = Some st
    ∧ search_continues st = false
    ∧ generate_tentative_target_positions (λ _, 0%nat) (0, 0, 0) 12 [] = Some targets
    ∧ targets = elements (valid_targets st)
    ∧ 0 ≤ attempts st ≤ 500
    ∧ (length targets ≤ 17)%nat
    ∧ NoDup targets
    ∧ ∀ c, c ∈ targets → manhattan (0, 0, 0) c = 12 ∧ c ∉ ([] : list StandardCoord).
Proof.
  apply (random_search_candidates (λ _, 0%nat) 0 0 0 12 []); [lia | reflexivity].
Defined.

(** The bound [17] is reached: with [(0, 3, 9)] occupied, the moves
    [(0, 3, 9)], [(0, -3, 9)] and [(-9, 0, 3)] give five, six and six
    coordinates. *)
Example random_search_seventeen_candidates :
  length <$> generate_tentative_target_positions draws_5_6_6 (0, 0, 0) 12 [(0, 3, 9)]
  = Some 17%nat.
Proof. vm_compute. reflexivity. Qed.

(** Always drawing the first element gives the moves [(-12, 0, 0)]: three
    coordinates, and the loop stops on the cap of [500] attempts. *)
Example random_search_exhausted :
  (λ st, (attempts st, size (valid_targets st)))
    <$> random_search (λ _, 0%nat) 0 0 0 12 []
  = Some (500, 3%nat).
Proof. vm_compute. reflexivity. Qed.

End RandomSearchRuns.

(** ** Dictionaries *)

Section DictFacts.

Context {K V : Type} `{EqDecision K}.
Implicit Types (d : list (K * V)) (k : K) (v : V).


Lemma dict_get_None d k : Dict.get d k = None ↔ k ∉ Dict.keys d.
Proof.
  unfold Dict.keys. induction d as [|[k0 v0] d IH]; simpl.
  - split; [intros _; apply not_elem_of_nil | done].
  - rewrite not_elem_of_cons. destruct (decide (k = k0)) as [->|Hne].
    + split; [done | intros [? _]; done].
    + rewrite IH. tauto.
Qed.

Lemma dict_get_is_Some d k : is_Some (Dict.get d k) ↔ k ∈ Dict.keys d.
Proof.
  rewrite <- not_eq_None_Some, dict_get_None.
  destruct (decide (k ∈ Dict.keys d)); tauto.
Qed.

Lemma dict_get_elem_of d k v : Dict.get d k = Some v → (k, v) ∈ d.
Proof.
  induction d as [|[k0 v0] d IH]; simpl; [done|].
  destruct (decide (k = k0)) as [->|Hne].
  - intros [= ->]. left.
  - intros H. right. by apply IH.
Qed.

Lemma dict_elem_of_get d k v :
  NoDup (Dict.keys d) → (k, v) ∈ d → Dict.get d k = Some v.
Proof.
  unfold Dict.keys. induction d as [|[k0 v0] d IH]; simpl.
  - intros _ H. by apply elem_of_nil in H.
  - intros Hnd Hin. apply NoDup_cons in Hnd as [Hk0 Hnd].
    apply elem_of_cons in Hin as [[= -> ->] | Hin].
    + by rewrite decide_True.
    + rewrite decide_False; [by apply IH|].
      intros ->. apply Hk0. apply list_elem_of_fmap. by exists (k0, v).
Qed.

(** Assigning to a key that is absent appends the entry. *)
Lemma dict_set_fresh d k v : k ∉ Dict.keys d → Dict.set d k v = d ++ [(k, v)].
Proof.
  unfold Dict.keys. induction d as [|[k0 v0] d IH]; simpl; [done|].
  rewrite not_elem_of_cons. intros [Hne Hk].
  rewrite decide_False by done. by rewrite IH.
Qed.

(** Assigning to a key that is present keeps the keys and their order. *)
Lemma dict_keys_set_present d k v :
  k ∈ Dict.keys d → Dict.keys (Dict.set d k v) = Dict.keys d.
Proof.
  unfold Dict.keys. induction d as [|[k0 v0] d IH]; simpl.
  - intros H. by apply elem_of_nil in H.
  - intros Hin. destruct (decide (k = k0)) as [->|Hne]; [done|].
    simpl. f_equal. apply IH. by apply elem_of_cons in Hin as [?|?].
Qed.

Lemma dict_keys_set d k v :
  Dict.keys (Dict.set d k v)
  = if decide (k ∈ Dict.keys d) then Dict.keys d else Dict.keys d ++ [k].
Proof.
  destruct (decide (k ∈ Dict.keys d)) as [Hin|Hout].
  - by apply dict_keys_set_present.
  - rewrite dict_set_fresh by done. unfold Dict.keys. by rewrite map_app.
Qed.

Lemma dict_elem_of_keys_set d k v k' :
  k' ∈ Dict.keys (Dict.set d k v) ↔ k' = k ∨ k' ∈ Dict.keys d.
Proof.
  rewrite dict_keys_set. destruct (decide (k ∈ Dict.keys d)) as [Hin|Hout].
  - split; [by right | intros [-> | ?]; done].
  - rewrite elem_of_app, list_elem_of_singleton. tauto.
Qed.


End DictFacts.

(** ** Loops *)

Section ForEach.

Context {A S : Type}.

Lemma for_each_app (l1 l2 : list A) (body : S → A → option S) (s : S) :
  Py.for_each (l1 ++ l2) body s = Py.for_each l1 body s ≫= Py.for_each l2 body.
Proof.
  revert s. induction l1 as [|x l1 IH]; intros s; simpl; [done|].
  destruct (body s x) as [s'|]; simpl; [apply IH | done].
Qed.

(** A loop whose body keeps an invariant does not raise. *)
Lemma for_each_invariant (P : nat → S → Prop) (items : list A)
    (body : S → A → option S) (s : S) :
  P 0%nat s →
  (∀ i x s, items !! i = Some x → P i s →
            ∃ s', body s x = Some s' ∧ P (Datatypes.S i) s') →
  ∃ s', Py.for_each items body s = Some s' ∧ P (length items) s'.
Proof.
  revert P s. induction items as [|x items IH]; intros P s H0 Hstep; simpl.
  - by exists s.
  - destruct (Hstep 0%nat x s eq_refl H0) as (s1 & -> & H1). simpl.
    apply (IH (λ i, P (Datatypes.S i))); [done|].
    intros i y s2 Hy. by apply (Hstep (Datatypes.S i)).
Qed.

End ForEach.

(** ** Re-indexing of edge paths *)

Section IndexPath.

Lemma range_1_seq (len : nat) :
  Py.range 1 (Z.of_nat len - 1) 1 = Z.of_nat <$> seq 1 (len - 2).
Proof.
  rewrite range_from_1.
  replace (Z.to_nat (Z.of_nat len - 1 - 1)) with (len - 2)%nat by lia.
  rewrite <- fmap_S_seq, <- list_fmap_compose.
  apply list_fmap_ext. intros _ k _. simpl. lia.
Qed.

Lemma fresh_ids_S (n : Z) (m : nat) :
  fresh_ids n (S m) = n :: fresh_ids (n + 1) m.
Proof.
  unfold fresh_ids. simpl. f_equal; [lia|].
  rewrite <- fmap_S_seq, <- list_fmap_compose.
  apply list_fmap_ext. intros _ k _. simpl. lia.
Qed.

Lemma fresh_ids_length (n : Z) (m : nat) : length (fresh_ids n m) = m.
Proof. unfold fresh_ids. by rewrite length_fmap, length_seq. Qed.

Lemma elem_of_fresh_ids (n : Z) (m : nat) (k : Z) :
  k ∈ fresh_ids n m ↔ n ≤ k < n + Z.of_nat m.
Proof.
  unfold fresh_ids. rewrite list_elem_of_fmap. split.
  - intros (i & -> & Hi). apply elem_of_seq in Hi. lia.
  - intros Hk. exists (Z.to_nat (k - n)). split; [lia|].
    apply elem_of_seq. lia.
Qed.

(** The loop over the intermediate elements: each one is appended under
    the next id. *)
Lemma intermediate_loop (nodes : list StandardBlock) (m j : nat)
    (acc : list (Z * StandardBlock)) (n : Z) :
  (∀ k, k ∈ Dict.keys acc → k < n) →
  (j + m ≤ length nodes)%nat →
  Py.for_each (Z.of_nat <$> seq j m)
    (fun '(indexed_path, next_id) i =>
       intermediate_node ← nodes !! Z.to_nat i;
       Some (Dict.set indexed_path next_id intermediate_node, next_id + 1))
    (acc, n)
  = Some (acc ++ zip (fresh_ids n m) (take m (drop j nodes)), n + Z.of_nat m).
Proof.
  revert j acc n. induction m as [|m IH]; intros j acc n Hkeys Hlen.
  - simpl. rewrite app_nil_r. do 2 f_equal. lia.
  - cbn [seq fmap list_fmap Py.for_each]. rewrite Nat2Z.id.
    destruct (lookup_lt_is_Some_2 nodes j ltac:(lia)) as [x Hx].
    rewrite Hx. cbn [mbind option_bind].
    rewrite dict_set_fresh by (intros Hin; apply Hkeys in Hin; lia).
    rewrite IH; [| |lia].
    + rewrite fresh_ids_S. rewrite (drop_S _ _ _ Hx). cbn [take zip zip_with].
      rewrite <- app_assoc. do 2 f_equal. lia.
    + intros k. unfold Dict.keys. rewrite map_app, elem_of_app. simpl.
      rewrite list_elem_of_singleton. intros [Hk | ->]; [|lia].
      apply Hkeys in Hk. lia.
Qed.

End IndexPath.

Section IndexOnePath.

Lemma intermediate_nodes_cons (first : StandardBlock) (rest : list StandardBlock) :
  intermediate_nodes (first :: rest) = take (length rest - 1) rest.
Proof.
  unfold intermediate_nodes. cbn [length drop].
  by rewrite drop_0.
Qed.

Lemma rest_split (rest : list StandardBlock) (final : StandardBlock) :
  last rest = Some final → rest = take (length rest - 1) rest ++ [final].
Proof.
  intros Hlast. destruct (last_Some rest final) as [(l' & ->) _]; [done|].
  rewrite length_app. simpl.
  replace (length l' + 1 - 1)%nat with (length l') by lia.
  by rewrite take_app_length.
Qed.

(** What the body of the second loop builds for a path that is not empty
    and whose start id is below the counter. *)
Lemma index_path_general (n : Z) (edge_path : EdgePath)
    (first : StandardBlock) (rest : list StandardBlock) :
  path_nodes edge_path = first :: rest →
  (src_tgt_ids edge_path).1 < n →
  let mid := intermediate_nodes (first :: rest) in
  let head := ((src_tgt_ids edge_path).1, first) :: zip (fresh_ids n (length mid)) mid in
  index_path n edge_path
  = Some (n + Z.of_nat (length mid),
          match last rest with
          | None => head
          | Some final => Dict.set head (src_tgt_ids edge_path).2 final
          end).
Proof.
  intros Hnodes Hstart mid head. unfold index_path.
  destruct (src_tgt_ids edge_path) as [start_key end_key]. simpl in Hstart.
  rewrite Hnodes. cbn [lookup list_lookup mbind option_bind].
  rewrite range_1_seq.
  rewrite (intermediate_loop (first :: rest) (length (first :: rest) - 2) 1).
  - cbn [mbind option_bind].
    assert (take (length (first :: rest) - 2) (drop 1 (first :: rest)) = mid) as ->
      by done.
    assert (length mid = (length (first :: rest) - 2)%nat) as Hlen.
    { unfold mid. rewrite intermediate_nodes_cons, length_take. simpl. lia. }
    rewrite <- Hlen.
    destruct rest as [|x rest'].
    + reflexivity.
    + replace (1 <? Z.of_nat (length (first :: x :: rest'))) with true
        by (symmetry; apply Z.ltb_lt; simpl; lia).
      change (last (first :: x :: rest')) with (last (x :: rest')).
      destruct (last (x :: rest')) as [final|] eqn:Hlast; [done|].
      by apply last_None in Hlast.
  - intros k Hk. simpl in Hk. apply list_elem_of_singleton in Hk. by subst.
  - simpl. lia.
Qed.

Lemma index_path_None (n : Z) (edge_path : EdgePath) :
  path_nodes edge_path = [] → index_path n edge_path = None.
Proof.
  intros H. unfold index_path. destruct (src_tgt_ids edge_path). by rewrite H.
Qed.

(** On a path whose two ids differ (or that has one element) the mapping
    is the one of the specification. *)
Lemma index_path_assigned (n : Z) (edge_path : EdgePath) :
  path_nodes edge_path ≠ [] →
  (src_tgt_ids edge_path).1 < n →
  (src_tgt_ids edge_path).2 < n →
  (length (path_nodes edge_path) = 1%nat
   ∨ (src_tgt_ids edge_path).1 ≠ (src_tgt_ids edge_path).2) →
  index_path n edge_path
  = Some (n + Z.of_nat (length (intermediate_nodes (path_nodes edge_path))),
          assigned_path n edge_path).
Proof.
  intros Hne Hstart Hend Hdiff.
  destruct (path_nodes edge_path) as [|first rest] eqn:Hnodes; [done|].
  rewrite (index_path_general n edge_path first rest Hnodes Hstart).
  cbv zeta. f_equal. f_equal. unfold assigned_path. rewrite Hnodes.
  destruct (src_tgt_ids edge_path) as [start_key end_key].
  cbn [fst snd] in *. cbn [zip zip_with]. f_equal.
  set (mid := intermediate_nodes (first :: rest)).
  destruct (last rest) as [final|] eqn:Hlast.
  - assert (rest = mid ++ [final]) as Hrest.
    { unfold mid. rewrite intermediate_nodes_cons. by apply rest_split. }
    rewrite dict_set_fresh.
    + rewrite <- app_comm_cons. f_equal. clearbody mid. subst rest.
      by rewrite zip_with_app by (by rewrite fresh_ids_length).
    + destruct Hdiff as [Hone | Hdiff].
      { clear Hrest. destruct rest; [done | simpl in Hone; lia]. }
      unfold Dict.keys. simpl. rewrite not_elem_of_cons. split; [done|].
      rewrite fst_zip by (rewrite fresh_ids_length; lia).
      rewrite elem_of_fresh_ids. lia.
  - apply last_None in Hlast. subst rest. done.
Qed.


End IndexOnePath.

Section IndexAllPaths.

Implicit Types (edge_paths : list EdgePath) (edge_path : EdgePath).

Lemma max_endpoint_loop_bounds (m0 : Z) edge_paths :
  let max_id :=
    foldl (fun max_id edge_path =>
             Z.max (Z.max max_id (src_tgt_ids edge_path).1)
                   (src_tgt_ids edge_path).2) m0 edge_paths in
  m0 ≤ max_id
  ∧ (∀ edge_path, edge_path ∈ edge_paths →
       (src_tgt_ids edge_path).1 ≤ max_id ∧ (src_tgt_ids edge_path).2 ≤ max_id)
  ∧ (max_id = m0
     ∨ ∃ edge_path, edge_path ∈ edge_paths
         ∧ (max_id = (src_tgt_ids edge_path).1 ∨ max_id = (src_tgt_ids edge_path).2)).
Proof.
  revert m0. induction edge_paths as [|ep eps IH]; intros m0; cbn [foldl].
  - split_and!; [lia | | by left]. intros ep H. by apply elem_of_nil in H.
  - specialize (IH (Z.max (Z.max m0 (src_tgt_ids ep).1) (src_tgt_ids ep).2)).
    cbv zeta in IH. destruct IH as (Hle & Hall & Hatt). split_and!.
    + lia.
    + intros ep' Hin. apply elem_of_cons in Hin as [-> | Hin]; [lia|].
      by apply Hall.
    + destruct Hatt as [Heq | (ep' & Hin & Hep')].
      * destruct (Z.max_spec (Z.max m0 (src_tgt_ids ep).1) (src_tgt_ids ep).2)
          as [[_ Hm] | [_ Hm]];
        destruct (Z.max_spec m0 (src_tgt_ids ep).1) as [[_ Hm'] | [_ Hm']].
        -- right. exists ep. split; [left | right; congruence].
        -- right. exists ep. split; [left | right; congruence].
        -- right. exists ep. split; [left | left; congruence].
        -- left. congruence.
      * right. exists ep'. split; [by right | done].
Qed.

(** [max_id] after the first loop is the largest of [0] and the ids of
    all paths. *)
Lemma max_endpoint_id_spec edge_paths :
  0 ≤ max_endpoint_id edge_paths
  ∧ (∀ edge_path, edge_path ∈ edge_paths →
       (src_tgt_ids edge_path).1 ≤ max_endpoint_id edge_paths
       ∧ (src_tgt_ids edge_path).2 ≤ max_endpoint_id edge_paths)
  ∧ (max_endpoint_id edge_paths = 0
     ∨ ∃ edge_path, edge_path ∈ edge_paths
         ∧ (max_endpoint_id edge_paths = (src_tgt_ids edge_path).1
            ∨ max_endpoint_id edge_paths = (src_tgt_ids edge_path).2)).
Proof. apply (max_endpoint_loop_bounds 0). Qed.

Lemma total_intermediates_cons edge_path edge_paths :
  total_intermediates (edge_path :: edge_paths)
  = (length (intermediate_nodes (path_nodes edge_path))
     + total_intermediates edge_paths)%nat.
Proof. reflexivity. Qed.


Lemma index_paths_unfold (n : Z) edge_paths :
  index_paths n edge_paths = Py.for_each edge_paths index_step (n, []).
Proof. reflexivity. Qed.

(** The second loop from any counter and any [indexed_paths]: where every
    path has two different ids below the counter (or one element), each
    path is recorded with the mapping of the specification. *)
Lemma index_loop_assigned (n : Z) edge_paths acc :
  (∀ edge_path, edge_path ∈ edge_paths →
     path_nodes edge_path ≠ []
     ∧ (src_tgt_ids edge_path).1 < n ∧ (src_tgt_ids edge_path).2 < n
     ∧ (length (path_nodes edge_path) = 1%nat
        ∨ (src_tgt_ids edge_path).1 ≠ (src_tgt_ids edge_path).2)) →
  Py.for_each edge_paths index_step (n, acc)
  = Some (n + Z.of_nat (total_intermediates edge_paths),
          write_all acc (assigned_paths n edge_paths)).
Proof.
  revert n acc. induction edge_paths as [|ep eps IH]; intros n acc Hall.
  - simpl. do 2 f_equal. unfold total_intermediates. simpl. lia.
  - destruct (Hall ep) as (Hne & Hs & He & Hd); [left|].
    cbn [Py.for_each index_step]. rewrite index_path_assigned by done.
    cbn [mbind option_bind]. rewrite IH.
    + rewrite total_intermediates_cons. cbn [assigned_paths write_all foldl fst snd].
      do 2 f_equal. lia.
    + intros ep' Hin. destruct (Hall ep') as (? & ? & ? & ?); [by right|].
      split_and!; try done; lia.
Qed.

Lemma assigned_paths_keys (n : Z) edge_paths :
  Dict.keys (assigned_paths n edge_paths) = src_tgt_ids <$> edge_paths.
Proof.
  revert n. induction edge_paths as [|ep eps IH]; intros n; [done|].
  cbn [assigned_paths]. unfold Dict.keys in *. simpl. by rewrite IH.
Qed.

(** Writing entries with distinct new keys appends them. *)
Lemma write_all_fresh {K V : Type} `{EqDecision K} (acc l : list (K * V)) :
  NoDup (Dict.keys acc ++ Dict.keys l) →
  write_all acc l = acc ++ l.
Proof.
  unfold write_all. revert acc. induction l as [|[k v] l IH]; intros acc Hnd; simpl.
  - by rewrite app_nil_r.
  - rewrite dict_set_fresh.
    + rewrite IH; [by rewrite <- app_assoc|].
      unfold Dict.keys in *. rewrite map_app, <- app_assoc. exact Hnd.
    + apply NoDup_app in Hnd as (_ & Hdisj & _). intros Hin.
      apply (Hdisj k Hin). unfold Dict.keys. simpl. left.
Qed.

End IndexAllPaths.

Section Lattice.

Implicit Types (item pre rest : list (Z * StandardBlock)).
Implicit Types (nodes : list (Z * StandardBlock)) (edges : list (Z * Z * string)).

Lemma even_position_mod (k : nat) : Z.of_nat (2 * k) mod 2 = 0.
Proof. rewrite Nat2Z.inj_mul, Z.mul_comm. apply Z_mod_mult. Qed.

Lemma odd_position_mod (k : nat) : Z.of_nat (2 * k + 1) mod 2 = 1.
Proof.
  rewrite Nat2Z.inj_add, Nat2Z.inj_mul, Z.add_comm, Z.mul_comm.
  by rewrite Z_mod_plus_full.
Qed.

Lemma walkable_cons_cons (b p : Z * StandardBlock) rest :
  walkable (b :: p :: rest) = match rest with [] => false | _ :: _ => walkable rest end.
Proof. by destruct rest. Qed.

Lemma keys_lookup_app pre rest (j : nat) :
  Dict.keys (pre ++ rest) !! (length pre + j)%nat = fst <$> rest !! j.
Proof.
  unfold Dict.keys. rewrite map_app, lookup_app_r by (rewrite length_map; lia).
  rewrite length_map. replace (length pre + j - length pre)%nat with j by lia.
  apply list_lookup_fmap.
Qed.

(** The loop over the entries of one mapping, from an even position on:
    blocks are written to the nodes, pipes to the edges; the loop raises
    when the walk ends on a pipe. *)
Lemma lattice_entries_loop (m : nat) rest : ∀ pre nodes edges (k : nat),
  (length rest ≤ m)%nat →
  length pre = (2 * k)%nat →
  Py.for_each rest (lattice_entry (Dict.keys (pre ++ rest)))
    (nodes, edges, Z.of_nat (length pre))
  = if walkable rest
    then Some (write_all nodes (even_entries rest),
               write_all edges (pipe_entries rest),
               Z.of_nat (length pre + length rest))
    else None.
Proof.
  revert rest. induction m as [|m IH]; intros rest pre nodes edges k Hm Hpre.
  { destruct rest; [|simpl in Hm; lia]. simpl. by rewrite Nat.add_0_r. }
  destruct rest as [|[kb vb] [|[kp vp] rest]].
  - simpl. by rewrite Nat.add_0_r.
  - cbn [Py.for_each lattice_entry]. rewrite Hpre, even_position_mod. simpl.
    do 3 f_equal. lia.
  - cbn [Py.for_each lattice_entry].
    rewrite Hpre at 1. rewrite even_position_mod.
    cbn [Z.eqb mbind option_bind Py.for_each lattice_entry].
    replace (Z.of_nat (length pre) + 1) with (Z.of_nat (2 * k + 1)) by lia.
    rewrite odd_position_mod. cbn [Z.eqb Pos.eqb].
    replace (Z.to_nat (Z.of_nat (2 * k + 1) - 1)) with (length pre + 0)%nat by lia.
    replace (Z.to_nat (Z.of_nat (2 * k + 1) + 1)) with (length pre + 2)%nat by lia.
    rewrite !keys_lookup_app.
    cbn [lookup list_lookup fmap option_fmap option_map fst mbind option_bind].
    destruct rest as [|[kb2 vb2] rest'].
    + done.
    + cbn [lookup list_lookup fmap option_fmap option_map fst mbind option_bind snd].
      replace (Z.of_nat (2 * k + 1) + 1)
        with (Z.of_nat (length (pre ++ [(kb, vb); (kp, vp)])))
        by (rewrite length_app; simpl; lia).
      replace (pre ++ (kb, vb) :: (kp, vp) :: (kb2, vb2) :: rest')
        with ((pre ++ [(kb, vb); (kp, vp)]) ++ (kb2, vb2) :: rest')
        by (by rewrite <- app_assoc).
      rewrite (IH _ _ _ _ (S k)); [| simpl in *; lia | rewrite length_app; simpl; lia].
      rewrite walkable_cons_cons.
      destruct (walkable ((kb2, vb2) :: rest')); [|done].
      cbn [even_entries pipe_entries write_all foldl fst snd].
      do 3 f_equal. rewrite length_app. simpl. lia.
Qed.

(** One pass of the fourth loop. *)
Lemma lattice_item_spec nodes edges item :
  lattice_item (nodes, edges) item
  = if walkable item
    then Some (write_all nodes (even_entries item), write_all edges (pipe_entries item))
    else None.
Proof.
  unfold lattice_item.
  pose proof (lattice_entries_loop (length item) item [] nodes edges 0 (le_n _) eq_refl) as H.
  change (Py.for_each item (lattice_entry (Dict.keys item)) (nodes, edges, 0)
          = if walkable item
            then Some (write_all nodes (even_entries item),
                       write_all edges (pipe_entries item),
                       Z.of_nat (length item))
            else None) in H.
  rewrite H by done. by destruct (walkable item).
Qed.

Lemma write_all_app {K V : Type} `{EqDecision K} (d l1 l2 : list (K * V)) :
  write_all d (l1 ++ l2) = write_all (write_all d l1) l2.
Proof. unfold write_all. apply foldl_app. Qed.

Lemma lattice_loop_spec (items : list (list (Z * StandardBlock))) nodes edges :
  Py.for_each items lattice_item (nodes, edges)
  = if forallb walkable items
    then Some (write_all nodes (concat (even_entries <$> items)),
               write_all edges (concat (pipe_entries <$> items)))
    else None.
Proof.
  revert nodes edges. induction items as [|item items IH]; intros nodes edges.
  - done.
  - cbn [Py.for_each forallb]. rewrite lattice_item_spec.
    destruct (walkable item); [|done].
    cbn [mbind option_bind andb]. rewrite IH.
    destruct (forallb walkable items); [|done].
    cbn [fmap list_fmap concat]. by rewrite !write_all_app.
Qed.

(** The fourth loop: it returns exactly when every mapping can be walked
    to its end, and then the nodes are the entries at even positions,
    written path after path, and the edges are the pipes between them. *)
Lemma lattice_of_spec (indexed_paths : list (Z * Z * list (Z * StandardBlock))) :
  lattice_of indexed_paths
  = if forallb walkable (Dict.values indexed_paths)
    then Some (write_all [] (concat (even_entries <$> Dict.values indexed_paths)),
               write_all [] (concat (pipe_entries <$> Dict.values indexed_paths)))
    else None.
Proof. apply lattice_loop_spec. Qed.

End Lattice.

Section FinalEdges.

Lemma range_from_0 (m : Z) : Py.range 0 m 1 = Z.of_nat <$> seq 0 (Z.to_nat m).
Proof.
  unfold Py.range. rewrite Z.div_1_r.
  replace (m - 0 + 1 - 1) with m by lia.
  apply list_fmap_ext. intros _ k _. lia.
Qed.

Lemma lookup_positions (n i : nat) (x : Z) :
  (Z.of_nat <$> seq 0 n) !! i = Some x → x = Z.of_nat i ∧ (i < n)%nat.
Proof.
  rewrite list_lookup_fmap. intros H.
  apply fmap_Some in H as (j & Hj & ->). apply lookup_seq in Hj as [-> ?].
  by split.
Qed.

(** The ids are split without raising: blocks take the even positions,
    pipes the odd ones, and every pipe id is one of the ids. *)
Lemma split_ids_total (node_ids : list Z) :
  ∃ block_ids edge_ids,
    split_ids node_ids = Some (block_ids, edge_ids)
    ∧ Z.of_nat (length block_ids) = (Z.of_nat (length node_ids) + 1) / 2
    ∧ Z.of_nat (length edge_ids) = Z.of_nat (length node_ids) / 2
    ∧ ∀ x, x ∈ edge_ids → x ∈ node_ids.
Proof.
  unfold split_ids. rewrite range_from_0, Nat2Z.id.
  destruct (for_each_invariant
              (λ i '(b, e),
                 Z.of_nat (length b) = (Z.of_nat i + 1) / 2
                 ∧ Z.of_nat (length e) = Z.of_nat i / 2
                 ∧ ∀ x, x ∈ e → x ∈ node_ids)
              (Z.of_nat <$> seq 0 (length node_ids))
              (split_step node_ids) ([], []))
    as ([b e] & Hrun & Hb & He & Hsub).
  - split_and!; [done | done |]. intros x Hx. by apply elem_of_nil in Hx.
  - intros i x [b e] Hx (Hb & He & Hsub).
    apply lookup_positions in Hx as [-> Hi].
    unfold split_step. rewrite Nat2Z.id.
    destruct (lookup_lt_is_Some_2 node_ids i Hi) as [node_id Hid].
    rewrite Hid. cbn [mbind option_bind].
    assert (∀ lb le zi : Z, lb = (zi + 1) / 2 → le = zi / 2 →
              (zi mod 2 = 0 → lb + 1 = (zi + 1 + 1) / 2 ∧ le = (zi + 1) / 2)
              ∧ (zi mod 2 ≠ 0 → lb = (zi + 1 + 1) / 2 ∧ le + 1 = (zi + 1) / 2))
      as Hdiv by (intros; Z.to_euclidean_division_equations; lia).
    specialize (Hdiv _ _ _ Hb He) as [Heven Hodd].
    destruct (Z.of_nat i mod 2 =? 0) eqn:Hpar; eexists; (split; [reflexivity|]);
      cbv beta iota; rewrite length_app; cbn [length];
      rewrite Nat2Z.inj_succ, Nat2Z.inj_add; cbn [length Z.of_nat].
    + apply Z.eqb_eq in Hpar. destruct (Heven Hpar). split_and!; [lia | lia | done].
    + apply Z.eqb_neq in Hpar. destruct (Hodd Hpar). split_and!; [lia | lia |].
      intros y Hy. apply elem_of_app in Hy as [Hy | Hy]; [by apply Hsub|].
      apply list_elem_of_singleton in Hy as ->.
      apply list_elem_of_lookup. by exists i.
  - rewrite length_fmap, length_seq in Hb, He.
    exists b, e. by split_and!.
Qed.

Lemma final_edges_step_total final_edges (entry : Z * Z * list (Z * StandardBlock)) :
  is_Some (final_edges_step final_edges entry).
Proof.
  destruct entry as [key path_id_value_map]. unfold final_edges_step.
  destruct (split_ids_total (Dict.keys path_id_value_map))
    as (block_ids & edge_ids & -> & Hb & He & Hsub).
  cbn [mbind option_bind].
  destruct (2 <=? Z.of_nat (length block_ids)); [|done].
  rewrite range_from_0.
  destruct (for_each_invariant (λ _ _, True)
              (Z.of_nat <$> seq 0 (Z.to_nat (Z.of_nat (length block_ids) - 1)))
              (path_edge_step path_id_value_map block_ids edge_ids) final_edges)
    as (result & -> & _); [done | | done].
  intros i x acc Hx _. apply lookup_positions in Hx as [-> Hi].
  unfold path_edge_step. rewrite Nat2Z.id.
  replace (Z.to_nat (Z.of_nat i + 1)) with (S i) by lia.
  destruct (lookup_lt_is_Some_2 block_ids i ltac:(lia)) as [node1 ->].
  destruct (lookup_lt_is_Some_2 block_ids (S i) ltac:(lia)) as [node2 ->].
  assert (i < length edge_ids)%nat as Hie.
  { revert Hb He Hi. generalize (length block_ids) (length edge_ids)
      (length (Dict.keys path_id_value_map)). intros.
    Z.to_euclidean_division_equations. lia. }
  destruct (lookup_lt_is_Some_2 edge_ids i Hie) as [edge_id Hid].
  rewrite Hid. cbn [mbind option_bind].
  assert (is_Some (Dict.get path_id_value_map edge_id)) as [edge_node ->].
  { apply dict_get_is_Some, Hsub. apply list_elem_of_lookup. by exists i. }
  cbn [mbind option_bind]. by eexists.
Qed.

(** The third loop does not raise. *)
Lemma final_edges_of_total (indexed_paths : list (Z * Z * list (Z * StandardBlock))) :
  is_Some (final_edges_of indexed_paths).
Proof.
  unfold final_edges_of.
  destruct (for_each_invariant (λ _ _, True) indexed_paths final_edges_step [])
    as (result & -> & _); [done | | done].
  intros i entry acc _ _.
  destruct (final_edges_step_total acc entry) as [r ->]. by exists r.
Qed.

(** The function is the second loop followed by the fourth. *)
Lemma build_newly_indexed_path_dict_unfold (edge_paths : list EdgePath) :
  build_newly_indexed_path_dict edge_paths
  = index_paths (max_endpoint_id edge_paths + 1) edge_paths
      ≫= λ '(_, indexed_paths), lattice_of indexed_paths.
Proof.
  unfold build_newly_indexed_path_dict.
  destruct (index_paths _ _) as [[n indexed_paths]|]; [|done].
  cbn [mbind option_bind].
  by destruct (final_edges_of_total indexed_paths) as [r ->].
Qed.

End FinalEdges.

Section AssignedIds.

Implicit Types (edge_paths : list EdgePath) (edge_path : EdgePath).

Lemma intermediate_nodes_length {A : Type} (l : list A) :
  length (intermediate_nodes l) = (length l - 2)%nat.
Proof. unfold intermediate_nodes. rewrite length_take, length_drop. lia. Qed.

Lemma intermediate_nodes_ends {A : Type} (x y : A) (mid : list A) :
  intermediate_nodes (x :: mid ++ [y]) = mid.
Proof.
  unfold intermediate_nodes. cbn [length drop]. rewrite drop_0, length_app.
  cbn [length]. replace (S (length mid + 1) - 2)%nat with (length mid) by lia.
  by rewrite take_app_length.
Qed.

Lemma fresh_ids_app (n : Z) (a b : nat) :
  fresh_ids n (a + b) = fresh_ids n a ++ fresh_ids (n + Z.of_nat a) b.
Proof.
  unfold fresh_ids. rewrite seq_app, fmap_app. f_equal.
  cbn [Nat.add]. replace (seq a b) with (seq (a + 0) b) by (f_equal; lia).
  rewrite <- (fmap_add_seq a 0 b), <- list_fmap_compose.
  apply list_fmap_ext. intros _ k _. simpl. lia.
Qed.

Lemma fresh_ids_NoDup (n : Z) (m : nat) : NoDup (fresh_ids n m).
Proof.
  unfold fresh_ids. apply NoDup_fmap_2; [|apply NoDup_seq].
  intros a b. lia.
Qed.

(** The keys and the values of the mapping of the specification, for a
    path of at least two elements. *)
Lemma assigned_path_keys_values (n : Z) edge_path :
  (2 ≤ length (path_nodes edge_path))%nat →
  Dict.keys (assigned_path n edge_path)
  = (src_tgt_ids edge_path).1
    :: fresh_ids n (length (intermediate_nodes (path_nodes edge_path)))
    ++ [(src_tgt_ids edge_path).2]
  ∧ Dict.values (assigned_path n edge_path) = path_nodes edge_path.
Proof.
  intros Hlen. unfold assigned_path, Dict.keys, Dict.values.
  destruct (src_tgt_ids edge_path) as [start_key end_key]. cbn [fst snd].
  assert (length (start_key
                  :: fresh_ids n (length (intermediate_nodes (path_nodes edge_path)))
                  ++ [end_key]) = length (path_nodes edge_path)) as Heq.
  { cbn [length]. rewrite length_app, fresh_ids_length, intermediate_nodes_length.
    simpl. lia. }
  split; [apply fst_zip | apply snd_zip]; lia.
Qed.

Lemma assigned_paths_app (n : Z) (l1 l2 : list EdgePath) :
  assigned_paths n (l1 ++ l2)
  = assigned_paths n l1 ++ assigned_paths (n + Z.of_nat (total_intermediates l1)) l2.
Proof.
  revert n. induction l1 as [|ep l1 IH]; intros n.
  - simpl. f_equal. unfold total_intermediates. simpl. lia.
  - cbn [app assigned_paths]. rewrite IH, total_intermediates_cons.
    do 3 f_equal. lia.
Qed.

(** The ids given to the intermediate elements of all paths, in order,
    are the consecutive ids from the first one on. *)
Lemma assigned_paths_fresh_ids (n : Z) edge_paths :
  (∀ edge_path, edge_path ∈ edge_paths → (2 ≤ length (path_nodes edge_path))%nat) →
  concat ((λ e, intermediate_nodes (Dict.keys e.2)) <$> assigned_paths n edge_paths)
  = fresh_ids n (total_intermediates edge_paths).
Proof.
  revert n. induction edge_paths as [|ep eps IH]; intros n Hall; [done|].
  cbn [assigned_paths fmap list_fmap concat snd].
  rewrite total_intermediates_cons, fresh_ids_app.
  rewrite IH by (intros ep' Hin; apply Hall; by right). f_equal.
  destruct (assigned_path_keys_values n ep) as [-> _]; [apply Hall; left|].
  apply intermediate_nodes_ends.
Qed.

End AssignedIds.

Section Reindexing.

Implicit Types (edge_paths : list EdgePath) (edge_path : EdgePath).

(** C4 (amended): where every path has at least two elements and two
    different ids, and no two paths have the same pair of ids, the second
    loop maps, for each path, the start id to the first element, the end
    id to the last element and fresh ids to the elements in between.  The
    fresh ids run from [max(0, largest id of a path) + 1] on, one per
    intermediate element, through all paths in order: they are pairwise
    distinct and above every id of a path.  The returned nodes are the
    entries at even positions of these mappings and the returned edges
    the pipes at odd positions, when every path ends on an even
    position; otherwise the function raises. *)
Theorem index_paths_assigns_fresh_ids edge_paths :
  (∀ edge_path, edge_path ∈ edge_paths →
     (2 ≤ length (path_nodes edge_path))%nat
     ∧ (src_tgt_ids edge_path).1 ≠ (src_tgt_ids edge_path).2) →
  NoDup (src_tgt_ids <$> edge_paths) →
  let max_id := max_endpoint_id edge_paths in
  let first_id := max_id + 1 in
  let indexed_paths := assigned_paths first_id edge_paths in
  let fresh := concat ((λ e, intermediate_nodes (Dict.keys e.2)) <$> indexed_paths) in
  index_paths first_id edge_paths
    = Some (first_id + Z.of_nat (total_intermediates edge_paths), indexed_paths)
  ∧ build_newly_indexed_path_dict edge_paths
    = (if forallb walkable (Dict.values indexed_paths)
       then Some (write_all [] (concat (even_entries <$> Dict.values indexed_paths)),
                  write_all [] (concat (pipe_entries <$> Dict.values indexed_paths)))
       else None)
  ∧ (∀ l1 edge_path l2, edge_paths = l1 ++ edge_path :: l2 →
       ∃ indexed_path,
         Dict.get indexed_paths (src_tgt_ids edge_path) = Some indexed_path
         ∧ Dict.keys indexed_path
           = (src_tgt_ids edge_path).1
             :: fresh_ids (first_id + Z.of_nat (total_intermediates l1))
                  (length (intermediate_nodes (path_nodes edge_path)))
             ++ [(src_tgt_ids edge_path).2]
         ∧ Dict.values indexed_path = path_nodes edge_path)
  ∧ (0 ≤ max_id
     ∧ (∀ edge_path, edge_path ∈ edge_paths →
          (src_tgt_ids edge_path).1 ≤ max_id ∧ (src_tgt_ids edge_path).2 ≤ max_id)
     ∧ (max_id = 0
        ∨ ∃ edge_path, edge_path ∈ edge_paths
            ∧ (max_id = (src_tgt_ids edge_path).1 ∨ max_id = (src_tgt_ids edge_path).2)))
  ∧ (fresh = fresh_ids first_id (total_intermediates edge_paths)
     ∧ NoDup fresh
     ∧ ∀ f edge_path, f ∈ fresh → edge_path ∈ edge_paths →
         (src_tgt_ids edge_path).1 < f ∧ (src_tgt_ids edge_path).2 < f).
Proof.
  intros Hall Hpairs max_id first_id indexed_paths fresh.
  pose proof (max_endpoint_id_spec edge_paths) as (Hmax0 & Hmax & Hatt).
  fold max_id in Hmax0, Hmax, Hatt.
  assert (NoDup (Dict.keys indexed_paths)) as Hkeys.
  { unfold indexed_paths. by rewrite assigned_paths_keys. }
  assert (index_paths first_id edge_paths
          = Some (first_id + Z.of_nat (total_intermediates edge_paths), indexed_paths))
    as Hindex.
  { rewrite index_paths_unfold, index_loop_assigned.
    - by rewrite write_all_fresh.
    - intros ep Hin. destruct (Hall ep Hin) as [Hlen Hdiff].
      destruct (Hmax ep Hin) as [Hs He]. unfold first_id.
      split_and!; [| lia | lia | by right].
      intros Hnil. rewrite Hnil in Hlen. simpl in Hlen. lia. }
  assert (fresh = fresh_ids first_id (total_intermediates edge_paths)) as Hfresh.
  { apply assigned_paths_fresh_ids. intros ep Hin. by apply Hall. }
  split_and!; try done.
  - rewrite build_newly_indexed_path_dict_unfold. fold max_id first_id.
    rewrite Hindex. cbn [mbind option_bind]. apply lattice_of_spec.
  - intros l1 ep l2 Heq. exists (assigned_path (first_id + Z.of_nat (total_intermediates l1)) ep).
    destruct (Hall ep) as [Hlen _]; [rewrite Heq; apply elem_of_app; right; left|].
    destruct (assigned_path_keys_values
                (first_id + Z.of_nat (total_intermediates l1)) ep Hlen) as [Hk Hv].
    split_and!; [|done|done].
    apply dict_elem_of_get; [done|].
    unfold indexed_paths. rewrite Heq, assigned_paths_app.
    apply elem_of_app. right. left.
  - rewrite Hfresh. apply fresh_ids_NoDup.
  - intros f ep Hf Hin. rewrite Hfresh in Hf. apply elem_of_fresh_ids in Hf.
    destruct (Hmax ep Hin). unfold first_id in Hf. lia.
Qed.

Lemma index_paths_assigns_fresh_ids_witness :
  index_paths (max_endpoint_id two_paths + 1) two_paths
  = Some (max_endpoint_id two_paths + 1 + Z.of_nat (total_intermediates two_paths),
          assigned_paths (max_endpoint_id two_paths + 1) two_paths).
Proof.
  apply (index_paths_assigns_fresh_ids two_paths).
  - intros ep Hin. unfold two_paths in Hin.
    apply elem_of_cons in Hin as [-> | Hin];
      [| apply list_elem_of_singleton in Hin as ->]; simpl; split; (lia || done).
  - simpl. apply NoDup_cons. split; [|apply NoDup_singleton].
    rewrite list_elem_of_singleton. discriminate.
Defined.

(** The sample run: ids [3] for the pipe of the first path and [4], [5],
    [6] for the intermediate elements of the second. *)
Example two_paths_indexed :
  index_paths (max_endpoint_id two_paths + 1) two_paths
  = Some (7, [ ((0, 1), [(0, block_a); (3, pipe_ab); (1, block_b)]);
               ((1, 2), [(1, block_b); (4, pipe_bc); (5, block_c);
                         (6, pipe_bc); (2, block_b)]) ])
  ∧ build_newly_indexed_path_dict two_paths
    = Some ([(0, block_a); (1, block_b); (5, block_c); (2, block_b)],
            [((0, 1), "zxo"); ((1, 5), "xoz"); ((5, 2), "xoz")]%string).
Proof. split; reflexivity. Qed.

(** C4 as stated fails on a path of one element: the end id is given to
    no element, and it is not a key of the returned nodes. *)
Lemma one_element_path_has_no_end_id :
  ¬ (∃ n indexed_paths indexed_path final,
       index_paths (max_endpoint_id [one_element_path] + 1) [one_element_path]
         = Some (n, indexed_paths)
       ∧ Dict.get indexed_paths (src_tgt_ids one_element_path) = Some indexed_path
       ∧ last (path_nodes one_element_path) = Some final
       ∧ last indexed_path = Some ((src_tgt_ids one_element_path).2, final))
  ∧ ¬ (∃ nodes edges,
         build_newly_indexed_path_dict [one_element_path] = Some (nodes, edges)
         ∧ (src_tgt_ids one_element_path).2 ∈ Dict.keys nodes).
Proof.
  split.
  - intros (n & ips & ip & final & Hidx & Hget & Hlast & Hend).
    vm_compute in Hidx. injection Hidx as <- <-.
    vm_compute in Hget. injection Hget as <-.
    vm_compute in Hend. discriminate Hend.
  - intros (nodes & edges & Hbuild & Hin).
    vm_compute in Hbuild. injection Hbuild as <- <-.
    apply list_elem_of_In in Hin. simpl in Hin.
    destruct Hin as [Hin | []]. discriminate Hin.
Qed.

(** A path whose two ids are equal keeps its id on the last element
    only. *)
Example same_ids_path :
  index_path 1 {| src_tgt_ids := (0, 0); path_nodes := [block_a; pipe_ab; block_b] |}
  = Some (2, [(0, block_b); (1, pipe_ab)]).
Proof. reflexivity. Qed.

(** With negative ids only, the counter starts at [1]. *)
Example negative_ids_path :
  index_paths
    (max_endpoint_id
       [{| src_tgt_ids := (-5, -3); path_nodes := [block_a; pipe_ab; block_b] |}] + 1)
    [{| src_tgt_ids := (-5, -3); path_nodes := [block_a; pipe_ab; block_b] |}]
  = Some (2, [((-5, -3), [(-5, block_a); (1, pipe_ab); (-3, block_b)])]).
Proof. reflexivity. Qed.

End Reindexing.

Section IndexOrigin.

Implicit Types (edge_paths : list EdgePath) (edge_path : EdgePath).
Implicit Types (indexed_paths : list (Z * Z * list (Z * StandardBlock))).

(** Where the second loop returns, no path is empty. *)
Lemma index_loop_nonempty edge_paths (n : Z) acc result :
  Py.for_each edge_paths index_step (n, acc) = Some result →
  ∀ edge_path, edge_path ∈ edge_paths → path_nodes edge_path ≠ [].
Proof.
  revert n acc. induction edge_paths as [|ep eps IH]; intros n acc Hrun ep' Hin.
  - by apply elem_of_nil in Hin.
  - cbn [Py.for_each index_step] in Hrun.
    destruct (index_path n ep) as [[n1 ip1]|] eqn:Hidx; [|done].
    cbn [mbind option_bind] in Hrun.
    apply elem_of_cons in Hin as [-> | Hin].
    + intros Hnil. by rewrite (index_path_None n ep Hnil) in Hidx.
    + by apply (IH _ _ Hrun).
Qed.



End IndexOrigin.

Section LatticeKeys.

Lemma write_all_keys {K V : Type} `{EqDecision K} (d l : list (K * V)) (k : K) :
  k ∈ Dict.keys (write_all d l) ↔ k ∈ Dict.keys d ∨ k ∈ Dict.keys l.
Proof.
  unfold write_all. revert d. induction l as [|[k0 v0] l IH]; intros d; cbn [foldl].
  - split; [by left | intros [? | H]; [done | by apply elem_of_nil in H]].
  - rewrite IH, dict_elem_of_keys_set. unfold Dict.keys. cbn [map fst].
    rewrite elem_of_cons. tauto.
Qed.



Lemma elem_of_concat {A : Type} (x : A) (ls : list (list A)) :
  x ∈ concat ls ↔ ∃ l, x ∈ l ∧ l ∈ ls.
Proof.
  rewrite list_elem_of_In, in_concat. split.
  - intros (l & Hl & Hx). exists l. by rewrite !list_elem_of_In.
  - intros (l & Hx & Hl). exists l. by rewrite <- !list_elem_of_In.
Qed.



End LatticeKeys.

Section Overwriting.

Implicit Types (edge_paths : list EdgePath) (edge_path : EdgePath).




(** The run of the witness: the ids [2], [3], [4] go to the first path,
    the pipe of the second path takes [5], and only the second path is
    left under the pair [(0, 1)]. *)
Example overwritten_path_run :
  index_paths 2 [long_path_0_1; short_path_0_1]
  = Some (6, [((0, 1), [(0, block_a); (5, pipe_ab); (1, block_b)])])
  ∧ build_newly_indexed_path_dict [long_path_0_1; short_path_0_1]
    = Some ([(0, block_a); (1, block_b)], [((0, 1), "zxo"%string)])
  ∧ build_newly_indexed_path_dict [long_path_0_1]
    = Some ([(0, block_a); (3, block_c); (1, block_b)],
            [((0, 3), "zxo"); ((3, 1), "xoz")]%string).
Proof. repeat split; reflexivity. Qed.

End Overwriting.

(** ** The exit classifier *)

Section ExitClassifier.



Lemma first_displacement_axes (dx dy dz : Z) :
  first_displacement (enumerate [dx; dy; dz])
  = if dx =? 0 then if dy =? 0 then if dz =? 0 then -1 else 2 else 1 else 0.
Proof. reflexivity. Qed.

Lemma first_displaced_axis_spec sx sy sz tx ty tz :
  first_displacement (enumerate [tx - sx; ty - sy; tz - sz])
  = match first_displaced_axis (sx, sy, sz) (tx, ty, tz) with
    | Some i => Z.of_nat i
    | None => -1
    end.
Proof.
  rewrite first_displacement_axes. unfold first_displaced_axis.
  destruct (Z.eqb_spec (tx - sx) 0), (Z.eqb_spec (ty - sy) 0), (Z.eqb_spec (tz - sz) 0);
    repeat case_decide; try reflexivity; lia.
Qed.

(** The positions that hold the marker. *)
Lemma valid_exit_indices_spec (a b c m : ascii) (i : nat) :
  (i < 3)%nat →
  bool_decide (Z.of_nat i ∈ (λ e : nat * ascii, Z.of_nat e.1)
                 <$> List.filter (λ e, bool_decide (e.2 = m)) (enumerate [a; b; c]))
  = bool_decide ([a; b; c] !! i = Some m).
Proof.
  intros Hi. apply bool_decide_ext.
  destruct i as [|[|[|?]]]; [ | | | lia]; cbn [enumerate length seq zip zip_with List.filter snd];
    destruct (decide (a = m)) as [Ha|Ha], (decide (b = m)) as [Hb|Hb],
             (decide (c = m)) as [Hc|Hc];
    rewrite ?(bool_decide_eq_true_2 _ Ha), ?(bool_decide_eq_false_2 _ Ha),
            ?(bool_decide_eq_true_2 _ Hb), ?(bool_decide_eq_false_2 _ Hb),
            ?(bool_decide_eq_true_2 _ Hc), ?(bool_decide_eq_false_2 _ Hc);
    cbn [fmap list_fmap fst lookup list_lookup];
    rewrite ?elem_of_cons, ?elem_of_nil; split; intros H;
    repeat match goal with
           | H : _ ∨ _ |- _ => destruct H
           | H : Some _ = Some _ |- _ => injection H as H
           end;
    try done; try lia; try (by subst); try (by f_equal); auto 6.
Qed.

(** A kind with fewer than three characters, or no kind, raises; any other
    kind is judged from its axis characters and their marker. *)
Lemma check_is_exit_no_axes s kind t :
  kind_axes kind = None → check_is_exit s kind t = None.
Proof.
  unfold kind_axes, check_is_exit. destruct kind as [k|]; [|done].
  destruct (str_lower k) as [|a [|b [|c r]]]; done.
Qed.

Lemma check_is_exit_axes s kind t (a b c : ascii) :
  kind_axes kind = Some (a, b, c) →
  check_is_exit s kind t
  = match chosen_marker a b c with
    | None => None
    | Some m =>
        Some match first_displaced_axis s t with
             | Some i => bool_decide ([a; b; c] !! i = Some m)
             | None => false
             end
    end.
Proof.
  unfold kind_axes, check_is_exit. destruct kind as [k|]; [|done].
  destruct (str_lower k) as [|a' [|b' [|c' r]]]; try done.
  intros [= -> -> ->]. cbn [String.substring String.get mbind option_bind].
  fold (chosen_marker a b c).
  destruct (chosen_marker a b c) as [m|]; [|done]. cbn [mbind option_bind].
  destruct s as [[sx sy] sz], t as [[tx ty] tz].
  rewrite first_displaced_axis_spec.
  destruct (first_displaced_axis (sx, sy, sz) (tx, ty, tz)) as [i|] eqn:Hi.
  - assert (i < 3)%nat as Hlt.
    { unfold first_displaced_axis in Hi. repeat case_decide; try discriminate Hi; injection Hi as <-; lia. }
    rewrite (valid_exit_indices_spec a b c m i Hlt).
    replace (Z.of_nat i =? -1) with false by (symmetry; apply Z.eqb_neq; lia).
    cbn [negb andb]. by destruct (bool_decide _).
  - reflexivity.
Qed.

Lemma count_two_unique (a b c x m : ascii) :
  count_occ ascii_dec [a; b; c] x = 2%nat →
  count_occ ascii_dec [a; b; c] m = 2%nat → x = m.
Proof.
  cbn [count_occ].
  destruct (ascii_dec a x), (ascii_dec b x), (ascii_dec c x),
           (ascii_dec a m), (ascii_dec b m), (ascii_dec c m);
    intros Hx Hm; try discriminate Hx; try discriminate Hm; congruence.
Qed.

Lemma has_doubled_count (a b c : ascii) :
  has_doubled a b c ↔ ∃ m, count_occ ascii_dec [a; b; c] m = 2%nat.
Proof.
  unfold has_doubled. split.
  - intros [[-> Hne] | [[-> Hne] | [-> Hne]]].
    + exists b. cbn [count_occ]. destruct (ascii_dec b b); [|done].
      by destruct (ascii_dec c b) as [->|].
    + exists c. cbn [count_occ]. destruct (ascii_dec c c); [|done].
      by destruct (ascii_dec b c) as [->|].
    + exists c. cbn [count_occ]. destruct (ascii_dec c c); [|done].
      by destruct (ascii_dec a c) as [->|].
  - intros [m Hm]. cbn [count_occ] in Hm.
    destruct (ascii_dec a m) as [->|Ha], (ascii_dec b m) as [->|Hb],
             (ascii_dec c m) as [->|Hc]; try discriminate Hm.
    + left. split; [done | congruence].
    + right. left. split; [done | congruence].
    + right. right. split; [done | congruence].
Qed.

Lemma counted_twice_elem (a b c x : ascii) :
  x ∈ List.filter (λ i, (count_occ ascii_dec [a; b; c] i =? 2)%nat)
        (elements (list_to_set [a; b; c] : gset ascii))
  ↔ count_occ ascii_dec [a; b; c] x = 2%nat.
Proof.
  rewrite list_elem_of_In, filter_In, <- list_elem_of_In, Nat.eqb_eq.
  rewrite elem_of_elements, elem_of_list_to_set. split; [tauto|].
  intros Hx. split; [|done]. apply list_elem_of_In.
  apply (count_occ_In ascii_dec). lia.
Qed.

Lemma chosen_marker_o (a b c : ascii) :
  "o"%char ∈ [a; b; c] → chosen_marker a b c = Some "o"%char.
Proof. intros H. unfold chosen_marker. by rewrite bool_decide_eq_true_2. Qed.

Lemma chosen_marker_doubled (a b c m : ascii) :
  "o"%char ∉ [a; b; c] → count_occ ascii_dec [a; b; c] m = 2%nat →
  chosen_marker a b c = Some m.
Proof.
  intros Ho Hm. unfold chosen_marker. rewrite bool_decide_eq_false_2 by done.
  apply counted_twice_elem in Hm as Hin.
  destruct (List.filter _ _) as [|x l] eqn:Hl; [by apply elem_of_nil in Hin|].
  cbn [head]. f_equal. apply (count_two_unique a b c); [|done].
  apply counted_twice_elem. rewrite Hl. left.
Qed.

Lemma chosen_marker_none (a b c : ascii) :
  "o"%char ∉ [a; b; c] → ¬ has_doubled a b c → chosen_marker a b c = None.
Proof.
  intros Ho Hd. unfold chosen_marker. rewrite bool_decide_eq_false_2 by done.
  destruct (List.filter _ _) as [|x l] eqn:Hl; [done|].
  exfalso. apply Hd, has_doubled_count. exists x.
  apply counted_twice_elem. rewrite Hl. left.
Qed.

Lemma kind_axes_None (kind : option string) :
  kind_axes kind = None
  ↔ kind = None ∨ ∃ k, kind = Some k ∧ (String.length k < 3)%nat.
Proof.
  assert (∀ k, String.length (str_lower k) = String.length k) as Hlen.
  { induction k as [|c k IH]; simpl; [done | by rewrite IH]. }
  unfold kind_axes. destruct kind as [k|]; [|by split; [left|]].
  specialize (Hlen k). split.
  - intros H. right. exists k. split; [done|].
    destruct (str_lower k) as [|a [|b [|c r]]]; try done; simpl in Hlen; lia.
  - intros [? | (k' & [= <-] & Hk)]; [done|].
    destruct (str_lower k) as [|a [|b [|c r]]]; try done. simpl in Hlen. lia.
Qed.

Lemma malformed_kind_axes (kind : option string) :
  malformed_kind kind
  ↔ kind_axes kind = None
    ∨ ∃ a b c, kind_axes kind = Some (a, b, c) ∧ chosen_marker a b c = None.
Proof.
  unfold malformed_kind. rewrite kind_axes_None. split.
  - intros [H | [H | (a & b & c & Haxes & Ho & Hd)]]; [left; by left | left; by right |].
    right. exists a, b, c. split; [done | by apply chosen_marker_none].
  - intros [[H | H] | (a & b & c & Haxes & Hnone)]; [by left | right; by left |].
    right. right. exists a, b, c. split; [done|].
    destruct (decide ("o"%char ∈ [a; b; c])) as [Ho|Ho].
    { by rewrite (chosen_marker_o a b c Ho) in Hnone. }
    split; [done|]. intros Hd. apply has_doubled_count in Hd as [m Hm].
    by rewrite (chosen_marker_doubled a b c m Ho Hm) in Hnone.
Qed.

Lemma check_is_exit_None s kind t :
  check_is_exit s kind t = None
  ↔ kind_axes kind = None
    ∨ ∃ a b c, kind_axes kind = Some (a, b, c) ∧ chosen_marker a b c = None.
Proof.
  destruct (kind_axes kind) as [[[a b] c]|] eqn:Haxes.
  - rewrite (check_is_exit_axes s kind t a b c Haxes). split.
    + intros Hnone. right. exists a, b, c. split; [done|].
      by destruct (chosen_marker a b c).
    + intros [? | (a' & b' & c' & [= <- <- <-] & ->)]; done.
  - rewrite (check_is_exit_no_axes s kind t Haxes). split; [by left | done].
Qed.

(** X1: on an ASCII kind, or none, [check_is_exit] raises exactly when no
    kind is given, when the kind has fewer than three characters, or when
    its three axis characters hold no ['o'] and no character exactly
    twice. *)
Theorem check_is_exit_raises (s t : StandardCoord) (kind : option string) :
  ascii_kind kind →
  check_is_exit s kind t = None ↔ malformed_kind kind.
Proof. intros _. by rewrite check_is_exit_None, malformed_kind_axes. Qed.

Lemma check_is_exit_raises_witness :
  ascii_kind (Some "zx"%string)
  ∧ (check_is_exit (0, 0, 0) (Some "zx"%string) (0, 0, 3) = None
     ↔ malformed_kind (Some "zx"%string)).
Proof.
  split; [reflexivity|].
  apply (check_is_exit_raises (0, 0, 0) (0, 0, 3) (Some "zx"%string)). reflexivity.
Defined.

(** X2: for a kind with ['o'] among its three axis characters, the face
    towards [t] is an exit exactly when the first axis along which [t]
    differs from [s] holds an ['o']; there is no exit towards [s] itself. *)
Theorem check_is_exit_marker_o (s t : StandardCoord) (kind : option string)
    (a b c : ascii) :
  kind_axes kind = Some (a, b, c) →
  "o"%char ∈ [a; b; c] →
  ∃ verdict, check_is_exit s kind t = Some verdict
    ∧ (verdict = true
       ↔ ∃ i, first_displaced_axis s t = Some i ∧ [a; b; c] !! i = Some "o"%char).
Proof.
  intros Haxes Ho. rewrite (check_is_exit_axes s kind t a b c Haxes).
  rewrite (chosen_marker_o a b c Ho). eexists. split; [reflexivity|].
  destruct (first_displaced_axis s t) as [i|].
  - rewrite bool_decide_eq_true. split; [intros H; by exists i | by intros (j & [= <-] & H)].
  - split; [done | by intros (j & Hj & _)].
Qed.


(** X4: the two faces on one axis are judged alike: the verdict towards
    [s + d] is the verdict towards [s - d], errors included. *)
Theorem check_is_exit_opposite_faces (kind : option string) (sx sy sz dx dy dz : Z) :
  check_is_exit (sx, sy, sz) kind (sx + dx, sy + dy, sz + dz)
  = check_is_exit (sx, sy, sz) kind (sx - dx, sy - dy, sz - dz).
Proof.
  destruct (kind_axes kind) as [[[a b] c]|] eqn:Haxes.
  - rewrite !(check_is_exit_axes _ kind _ a b c Haxes).
    replace (first_displaced_axis (sx, sy, sz) (sx - dx, sy - dy, sz - dz))
      with (first_displaced_axis (sx, sy, sz) (sx + dx, sy + dy, sz + dz)); [done|].
    unfold first_displaced_axis. repeat case_decide; try done; lia.
  - by rewrite !(check_is_exit_no_axes _ kind _ Haxes).
Qed.

End ExitClassifier.

Section ExitCount.

Implicit Types (kind : option string) (occupied : list StandardCoord)
  (all_beams : list NodeBeams).

(** A verdict [True] means that no cell of the beam is occupied. *)
Lemma check_unobstructed_true_free s t occupied all_beams (n : Z) :
  (check_unobstructed s t occupied all_beams n).1 = true →
  ∀ c, c ∈ synthesize_beam s t n → c ∉ occupied.
Proof.
  intros Htrue c Hc Hocc. destruct occupied as [|o rest].
  - by apply elem_of_nil in Hocc.
  - assert ((check_unobstructed s t (o :: rest) all_beams n).1 = false) as Hfalse.
    { apply check_unobstructed_verdict; [done|]. by exists c. }
    congruence.
Qed.

Lemma check_is_exit_kind_only s t s' t' kind :
  check_is_exit s kind t = None → check_is_exit s' kind t' = None.
Proof.
  destruct (kind_axes kind) as [[[a b] c]|] eqn:Haxes.
  - rewrite !(check_is_exit_axes _ kind _ a b c Haxes).
    by destruct (chosen_marker a b c).
  - intros _. by apply check_is_exit_no_axes.
Qed.

Lemma exit_step_unfold x y z kind occupied all_beams (len : Z) (n : Z)
    (beams : NodeBeams) (d0 d1 d2 : Z) :
  exit_step (x, y, z) kind occupied all_beams len (n, beams) (d0, d1, d2)
  = match check_is_exit (x, y, z) kind (x + d0, y + d1, z + d2) with
    | None => None
    | Some true =>
        if (check_unobstructed (x, y, z) (x + d0, y + d1, z + d2)
              occupied all_beams len).1
        then Some (n + 1,
                   beams ++ [synthesize_beam (x, y, z) (x + d0, y + d1, z + d2) len])
        else Some (n, beams)
    | Some false => Some (n, beams)
    end.
Proof.
  unfold exit_step.
  destruct (check_is_exit _ _ _) as [[|]|]; cbn [mbind option_bind]; try done.
  rewrite <- (check_unobstructed_beam _ _ occupied all_beams).
  by destruct (check_unobstructed _ _ _ _ _) as [[|] beam].
Qed.

(** The loop on the directions from any state: it raises exactly when
    [check_is_exit] raises, it appends the beams of the exits that are not
    obstructed, and it counts them. *)
Lemma exit_loop_spec (node : StandardCoord) kind occupied all_beams (len : Z)
    (dirs : list (Z * Z * Z)) (n : Z) (beams : NodeBeams) :
  check_is_exit node kind node ≠ None →
  ∃ new,
    Py.for_each dirs (exit_step node kind occupied all_beams len) (n, beams)
    = Some (n + Z.of_nat (length new), beams ++ new)
    ∧ (length new ≤ length dirs)%nat
    ∧ (∀ beam, beam ∈ new →
         ∃ d, d ∈ dirs
           ∧ check_is_exit node kind (node.1.1 + d.1.1, node.1.2 + d.1.2, node.2 + d.2)
             = Some true
           ∧ beam = synthesize_beam node
                      (node.1.1 + d.1.1, node.1.2 + d.1.2, node.2 + d.2) len
           ∧ ∀ c, c ∈ beam → c ∉ occupied)
    ∧ (∀ d, d ∈ dirs →
         check_is_exit node kind (node.1.1 + d.1.1, node.1.2 + d.1.2, node.2 + d.2)
           = Some true →
         (check_unobstructed node (node.1.1 + d.1.1, node.1.2 + d.1.2, node.2 + d.2)
            occupied all_beams len).1 = true →
         synthesize_beam node (node.1.1 + d.1.1, node.1.2 + d.1.2, node.2 + d.2) len
           ∈ new).
Proof.
  intros Hwf. revert n beams.
  induction dirs as [|d dirs IH]; intros n beams.
  - exists []. cbn. rewrite app_nil_r, Z.add_0_r. split_and!; try done.
    + intros beam H. by apply elem_of_nil in H.
    + intros d H. by apply elem_of_nil in H.
  - cbn [Py.for_each].
    destruct node as [[x y] z], d as [[d0 d1] d2]. cbn [fst snd] in *.
    rewrite exit_step_unfold.
    destruct (check_is_exit (x, y, z) kind (x + d0, y + d1, z + d2)) as [is_exit|] eqn:Hexit.
    2:{ exfalso. apply Hwf. by apply (check_is_exit_kind_only _ _ _ _ _ Hexit). }
    set (beam := synthesize_beam (x, y, z) (x + d0, y + d1, z + d2) len).
    destruct ((check_unobstructed (x, y, z) (x + d0, y + d1, z + d2)
                 occupied all_beams len).1) eqn:Hun.
    + assert (∀ c, c ∈ beam → c ∉ occupied) as Hfree.
      { intros c Hc. eapply check_unobstructed_true_free; [exact Hun | exact Hc]. }
      destruct is_exit; cbv beta iota; cbn [mbind option_bind].
      * destruct (IH (n + 1) (beams ++ [beam])) as (new & Hrun & Hlen & Hsound & Hcomplete).
        exists (beam :: new). split_and!.
        -- etrans; [exact Hrun|].
           cbn [length]. rewrite <- app_assoc. do 2 f_equal. lia.
        -- cbn [length]. lia.
        -- intros b Hb. apply elem_of_cons in Hb as [-> | Hb].
           ++ exists (d0, d1, d2). split_and!; [left | done | done | done].
           ++ destruct (Hsound b Hb) as (d & Hd & H). exists d. split; [by right | done].
        -- intros d Hd He Hv. apply elem_of_cons in Hd as [-> | Hd].
           ++ left.
           ++ right. by apply Hcomplete.
      * destruct (IH n beams) as (new & Hrun & Hlen & Hsound & Hcomplete).
        exists new. split_and!; [exact Hrun | cbn [length]; lia | |].
        -- intros b Hb. destruct (Hsound b Hb) as (d & Hd & H). exists d. split; [by right | done].
        -- intros d Hd He Hv. apply elem_of_cons in Hd as [-> | Hd]; [|by apply Hcomplete].
           cbn [fst snd] in He. congruence.
    + destruct (IH n beams) as (new & Hrun & Hlen & Hsound & Hcomplete).
      exists new. split_and!; [by destruct is_exit | cbn [length]; lia | |].
      * intros b Hb. destruct (Hsound b Hb) as (d & Hd & H). exists d. split; [by right | done].
      * intros d Hd He Hv. apply elem_of_cons in Hd as [-> | Hd]; [|by apply Hcomplete].
        cbn [fst snd] in Hv. congruence.
Qed.

Lemma check_for_exits_None (node : StandardCoord) kind occupied all_beams (len : Z) :
  check_for_exits node kind occupied all_beams len = None
  ↔ check_is_exit node kind node = None.
Proof.
  destruct (check_is_exit node kind node) as [v|] eqn:Hv.
  - split; [|done]. intros Hnone.
    destruct (exit_loop_spec node kind occupied all_beams len directional_array 0 [])
      as (new & Hrun & _); [by rewrite Hv|].
    unfold check_for_exits in Hnone.
    discriminate (eq_trans (eq_sym Hrun) Hnone).
  - split; [done|]. intros _. unfold check_for_exits, directional_array.
    cbn [Py.for_each]. destruct node as [[x y] z]. rewrite exit_step_unfold.
    by rewrite (check_is_exit_kind_only _ _ (x, y, z) (x + 1, y + 0, z + 0) _ Hv).
Qed.

(** X5: on an ASCII kind, or none, [check_for_exits] raises exactly on the
    kinds on which [check_is_exit] raises, whatever is occupied: no kind,
    fewer than three characters, or three axis characters with no ['o'] and
    no character exactly twice. *)
Theorem check_for_exits_raises (node : StandardCoord) kind occupied all_beams (len : Z) :
  ascii_kind kind →
  check_for_exits node kind occupied all_beams len = None ↔ malformed_kind kind.
Proof.
  intros _. by rewrite check_for_exits_None, check_is_exit_None, malformed_kind_axes.
Qed.

Lemma check_for_exits_raises_witness :
  ascii_kind (Some "zxy"%string)
  ∧ (check_for_exits (0, 0, 0) (Some "zxy"%string) [(0, 0, 2)] [] 3 = None
     ↔ malformed_kind (Some "zxy"%string)).
Proof.
  split; [reflexivity|].
  apply (check_for_exits_raises (0, 0, 0) (Some "zxy"%string) [(0, 0, 2)] [] 3).
  reflexivity.
Defined.

(** X6: what [check_for_exits] returns: the count is the number of beams
    and at most six; every beam is the beam of an exit face, has
    [length_of_beams - 1] cells, none of them occupied; and the beam of
    every exit face that is not obstructed is among them. *)
Theorem check_for_exits_beams (node : StandardCoord) kind occupied all_beams (len : Z)
    (count : Z) (beams : NodeBeams) :
  check_for_exits node kind occupied all_beams len = Some (count, beams) →
  count = Z.of_nat (length beams)
  ∧ (length beams ≤ 6)%nat
  ∧ (∀ beam, beam ∈ beams →
       length beam = Z.to_nat (len - 1)
       ∧ (∀ c, c ∈ beam → c ∉ occupied)
       ∧ ∃ d, d ∈ directional_array
           ∧ check_is_exit node kind (node.1.1 + d.1.1, node.1.2 + d.1.2, node.2 + d.2)
             = Some true
           ∧ beam = synthesize_beam node
                      (node.1.1 + d.1.1, node.1.2 + d.1.2, node.2 + d.2) len)
  ∧ (∀ d, d ∈ directional_array →
       check_is_exit node kind (node.1.1 + d.1.1, node.1.2 + d.1.2, node.2 + d.2)
         = Some true →
       (check_unobstructed node (node.1.1 + d.1.1, node.1.2 + d.1.2, node.2 + d.2)
          occupied all_beams len).1 = true →
       synthesize_beam node (node.1.1 + d.1.1, node.1.2 + d.1.2, node.2 + d.2) len
         ∈ beams).
Proof.
  intros Hrun.
  assert (check_is_exit node kind node ≠ None) as Hwf.
  { intros Hnone.
    apply (check_for_exits_None node kind occupied all_beams len) in Hnone.
    congruence. }
  destruct (exit_loop_spec node kind occupied all_beams len directional_array 0 [] Hwf)
    as (new & Hrun' & Hlen & Hsound & Hcomplete).
  unfold check_for_exits in Hrun.
  pose proof (eq_trans (eq_sym Hrun') Hrun) as Heq.
  injection Heq as <- <-. split_and!; [lia | done | | done].
  intros beam Hb. destruct (Hsound beam Hb) as (d & Hd & He & Hbeam & Hfree).
  split_and!; [| done | by exists d].
  rewrite Hbeam. apply synthesize_beam_length.
Qed.




End ExitCount.

Lemma check_is_exit_marker_o_witness :
  kind_axes (Some "zxo"%string) = Some ("z"%char, "x"%char, "o"%char)
  ∧ "o"%char ∈ ["z"%char; "x"%char; "o"%char]
  ∧ ∃ verdict, check_is_exit (0, 0, 0) (Some "zxo"%string) (0, 0, 3) = Some verdict
      ∧ (verdict = true
         ↔ ∃ i, first_displaced_axis (0, 0, 0) (0, 0, 3) = Some i
                ∧ ["z"%char; "x"%char; "o"%char] !! i = Some "o"%char).
Proof.
  assert ("o"%char ∈ ["z"%char; "x"%char; "o"%char]) as Ho
    by (apply list_elem_of_In; simpl; tauto).
  split; [reflexivity|]. split; [exact Ho|].
  apply (check_is_exit_marker_o (0, 0, 0) (0, 0, 3) (Some "zxo"%string)
           "z"%char "x"%char "o"%char); [reflexivity | exact Ho].
Defined.


Lemma check_for_exits_beams_witness :
  check_for_exits (0, 0, 0) (Some "zxo"%string) [(0, 0, 2)] [] 3
  = Some (1, [[(0, 0, -1); (0, 0, -2)]])
  ∧ 1 = Z.of_nat (length [[(0, 0, -1); (0, 0, -2)]])
  ∧ (length [[(0, 0, -1); (0, 0, -2)]]%Z ≤ 6)%nat
  ∧ (∀ beam, beam ∈ [[(0, 0, -1); (0, 0, -2)]] →
       length beam = Z.to_nat (3 - 1)
       ∧ (∀ c, c ∈ beam → c ∉ [(0, 0, 2)])
       ∧ ∃ d, d ∈ directional_array
           ∧ check_is_exit (0, 0, 0) (Some "zxo"%string)
               ((0, 0, 0).1.1 + d.1.1, (0, 0, 0).1.2 + d.1.2, (0, 0, 0).2 + d.2)
             = Some true
           ∧ beam = synthesize_beam (0, 0, 0)
                      ((0, 0, 0).1.1 + d.1.1, (0, 0, 0).1.2 + d.1.2, (0, 0, 0).2 + d.2) 3)
  ∧ (∀ d, d ∈ directional_array →
       check_is_exit (0, 0, 0) (Some "zxo"%string)
         ((0, 0, 0).1.1 + d.1.1, (0, 0, 0).1.2 + d.1.2, (0, 0, 0).2 + d.2)
         = Some true →
       (check_unobstructed (0, 0, 0)
          ((0, 0, 0).1.1 + d.1.1, (0, 0, 0).1.2 + d.1.2, (0, 0, 0).2 + d.2)
          [(0, 0, 2)] [] 3).1 = true →
       synthesize_beam (0, 0, 0)
         ((0, 0, 0).1.1 + d.1.1, (0, 0, 0).1.2 + d.1.2, (0, 0, 0).2 + d.2) 3
         ∈ [[(0, 0, -1); (0, 0, -2)]]).
Proof.
  split; [vm_compute; reflexivity|].
  apply (check_for_exits_beams (0, 0, 0) (Some "zxo"%string) [(0, 0, 2)] [] 3).
  vm_compute; reflexivity.
Defined.


(** ** The obstruction check *)

Section Obstruction.

Implicit Types (occupied : list StandardCoord) (all_beams : list NodeBeams).

(** The verdict is [False] exactly when a cell of the beam is occupied,
    also when nothing is occupied. *)
Lemma check_unobstructed_false s t occupied all_beams (n : Z) :
  (check_unobstructed s t occupied all_beams n).1 = false
  ↔ ∃ c, c ∈ synthesize_beam s t n ∧ c ∈ occupied.
Proof.
  destruct occupied as [|o rest].
  - split; [done|]. intros (c & _ & Hc). by apply elem_of_nil in Hc.
  - by apply check_unobstructed_verdict.
Qed.

Lemma unit_direction_scale (k d : Z) :
  0 < k → unit_direction (k * d) = unit_direction d.
Proof.
  intros Hk. unfold unit_direction.
  destruct (0 <? d) eqn:H1, (d <? 0) eqn:H2, (0 <? k * d) eqn:H3, (k * d <? 0) eqn:H4;
    try done; exfalso;
    rewrite ?Z.ltb_lt, ?Z.ltb_ge in H1, H2, H3, H4; nia.
Qed.

(** X8: the face is judged obstructed exactly when one of the cells at
    [1] to [length_of_beams - 1] unit steps from the source, in the
    direction of the target, is in [occupied]; [all_beams] plays no part. *)
Theorem check_unobstructed_obstructed (sx sy sz tx ty tz : Z) occupied all_beams (n : Z) :
  (check_unobstructed (sx, sy, sz) (tx, ty, tz) occupied all_beams n).1 = false
  ↔ ∃ i, 1 ≤ i ≤ n - 1
       ∧ (sx + unit_direction (tx - sx) * i,
          sy + unit_direction (ty - sy) * i,
          sz + unit_direction (tz - sz) * i) ∈ occupied.
Proof.
  rewrite check_unobstructed_false. split.
  - intros (c & Hc & Hocc). apply synthesize_beam_cells in Hc as (i & Hi & ->).
    by exists i.
  - intros (i & Hi & Hocc). eexists. split; [|exact Hocc].
    apply synthesize_beam_cells. by exists i.
Qed.

(** X9: a face that is unobstructed stays unobstructed when fewer cells
    are occupied and when the beam is shorter. *)
Theorem check_unobstructed_antitone (s t : StandardCoord) occupied occupied'
    all_beams all_beams' (n n' : Z) :
  occupied ⊆ occupied' →
  n ≤ n' →
  (check_unobstructed s t occupied' all_beams' n').1 = true →
  (check_unobstructed s t occupied all_beams n).1 = true.
Proof.
  intros Hsub Hn Htrue. apply not_false_iff_true. intros Hfalse.
  apply not_false_iff_true in Htrue. apply Htrue.
  apply check_unobstructed_false in Hfalse as (c & Hc & Hocc).
  apply check_unobstructed_false. exists c. split; [|by apply Hsub].
  destruct s as [[sx sy] sz], t as [[tx ty] tz].
  apply synthesize_beam_cells in Hc as (i & Hi & ->).
  apply synthesize_beam_cells. exists i. split; [lia | done].
Qed.

(** X10: only the direction of the target counts, not its distance: a
    target [k] times as far along the same line gives the same verdict and
    the same beam. *)
Theorem check_unobstructed_direction_only (sx sy sz dx dy dz k : Z) occupied all_beams
    (n : Z) :
  0 < k →
  check_unobstructed (sx, sy, sz) (sx + k * dx, sy + k * dy, sz + k * dz)
    occupied all_beams n
  = check_unobstructed (sx, sy, sz) (sx + dx, sy + dy, sz + dz) occupied all_beams n.
Proof.
  intros Hk.
  assert (synthesize_beam (sx, sy, sz) (sx + k * dx, sy + k * dy, sz + k * dz) n
          = synthesize_beam (sx, sy, sz) (sx + dx, sy + dy, sz + dz) n) as Hbeam.
  { unfold synthesize_beam.
    replace (sx + k * dx - sx) with (k * dx) by lia.
    replace (sy + k * dy - sy) with (k * dy) by lia.
    replace (sz + k * dz - sz) with (k * dz) by lia.
    replace (sx + dx - sx) with dx by lia.
    replace (sy + dy - sy) with dy by lia.
    replace (sz + dz - sz) with dz by lia.
    by rewrite !unit_direction_scale. }
  unfold check_unobstructed. by rewrite Hbeam.
Qed.

End Obstruction.

Lemma check_unobstructed_antitone_witness :
  [(0, 0, 5)] ⊆ [(0, 0, 5); (0, 0, 9)]
  ∧ 3 ≤ 4
  ∧ (check_unobstructed (0, 0, 0) (0, 0, 1) [(0, 0, 5); (0, 0, 9)] [] 4).1 = true
  ∧ (check_unobstructed (0, 0, 0) (0, 0, 1) [(0, 0, 5)] [[[(0, 0, 1)]]] 3).1 = true.
Proof.
  assert ([(0, 0, 5)] ⊆ [(0, 0, 5); (0, 0, 9)]) as Hsub.
  { intros c Hc. apply list_elem_of_singleton in Hc as ->. left. }
  split; [exact Hsub|]. split; [lia|]. split; [reflexivity|].
  apply (check_unobstructed_antitone (0, 0, 0) (0, 0, 1) [(0, 0, 5)]
           [(0, 0, 5); (0, 0, 9)] [[[(0, 0, 1)]]] [] 3 4); [exact Hsub | lia | reflexivity].
Defined.

Lemma check_unobstructed_direction_only_witness :
  0 < 3
  ∧ check_unobstructed (0, 0, 0) (0 + 3 * 0, 0 + 3 * 0, 0 + 3 * (-1)) [(0, 0, -2)] [] 3
    = check_unobstructed (0, 0, 0) (0 + 0, 0 + 0, 0 + (-1)) [(0, 0, -2)] [] 3.
Proof.
  split; [lia|].
  apply (check_unobstructed_direction_only 0 0 0 0 0 (-1) 3 [(0, 0, -2)] [] 3). lia.
Defined.

(** ** The move test *)

(** X11: the move test does not depend on the direction of the move nor
    on where the two cells lie: it is symmetric and invariant under a
    common shift. *)
Theorem is_move_allowed_symmetric_shift (sx sy sz tx ty tz vx vy vz : Z) :
  is_move_allowed (sx, sy, sz) (tx, ty, tz) = is_move_allowed (tx, ty, tz) (sx, sy, sz)
  ∧ is_move_allowed (sx + vx, sy + vy, sz + vz) (tx + vx, ty + vy, tz + vz)
    = is_move_allowed (sx, sy, sz) (tx, ty, tz).
Proof.
  unfold is_move_allowed. split; f_equal; f_equal; lia.
Qed.

(** X12: between two cells whose coordinates differ by multiples of [3]
    on every axis, the move is allowed. *)
Theorem is_move_allowed_on_lattice (sx sy sz tx ty tz : Z) :
  (3 | tx - sx) → (3 | ty - sy) → (3 | tz - sz) →
  is_move_allowed (sx, sy, sz) (tx, ty, tz) = true.
Proof.
  intros Hx Hy Hz. unfold is_move_allowed. apply Z.eqb_eq.
  apply Z.mod_divide; [lia|].
  repeat apply Z.divide_add_r; by apply Z.divide_abs_r.
Qed.

Lemma is_move_allowed_on_lattice_witness :
  (3 | 3 - 0) ∧ (3 | -6 - 0) ∧ (3 | 0 - 0)
  ∧ is_move_allowed (0, 0, 0) (3, -6, 0) = true.
Proof.
  assert (3 | 3 - 0) as Hx by (exists 1; lia).
  assert (3 | -6 - 0) as Hy by (exists (-2); lia).
  assert (3 | 0 - 0) as Hz by (exists 0; lia).
  split; [exact Hx|]. split; [exact Hy|]. split; [exact Hz|].
  apply (is_move_allowed_on_lattice 0 0 0 3 (-6) 0); [exact Hx | exact Hy | exact Hz].
Defined.

(** ** Candidate generation: all steps *)

Section Candidates.

Implicit Types (occupied_coords : list StandardCoord) (c : StandardCoord).

Lemma filter_not_occupied_elem occupied_coords (l : list StandardCoord) c :
  c ∈ List.filter (not_occupied occupied_coords) l ↔ c ∈ l ∧ c ∉ occupied_coords.
Proof.
  rewrite list_elem_of_In, filter_In, <- list_elem_of_In. unfold not_occupied.
  rewrite negb_true_iff, <- not_true_iff_false, coord_in_coords_spec. done.
Qed.

Lemma filter_NoDup {A : Type} (f : A → bool) (l : list A) :
  NoDup l → NoDup (List.filter f l).
Proof. rewrite !NoDup_ListNoDup. apply List.NoDup_filter. Qed.

Lemma single_moves_NoDup sx sy sz : NoDup (single_moves sx sy sz).
Proof.
  unfold single_moves.
  repeat (apply NoDup_cons; split;
          [ rewrite ?elem_of_cons, elem_of_nil; intros H;
            repeat (destruct H as [H | H]); try done; injection H; lia | ]).
  apply NoDup_nil_2.
Qed.

Lemma single_moves_spec sx sy sz c :
  c ∈ single_moves sx sy sz ↔ one_axis_move (sx, sy, sz) c.
Proof.
  unfold single_moves, one_axis_move.
  rewrite !elem_of_cons, elem_of_nil. split.
  - intros H. repeat (destruct H as [H | H]); try done; subst c;
      first [ exists 3; split; [lia|]; by eauto
            | exists (-3); split; [lia|]; by eauto ].
  - intros (d & [-> | ->] & [-> | [-> | ->]]); tauto.
Qed.

Lemma one_axis_move_distance s c : one_axis_move s c → manhattan s c = 3.
Proof.
  destruct s as [[sx sy] sz]. unfold one_axis_move, manhattan.
  intros (d & H & [-> | [-> | ->]]); lia.
Qed.

Lemma triple_moves_list_NoDup sx sy sz : NoDup (triple_moves_list sx sy sz).
Proof.
  unfold triple_moves_list.
  repeat (apply NoDup_cons; split;
          [ rewrite ?elem_of_cons, elem_of_nil; intros H;
            repeat (destruct H as [H | H]); try done; injection H; lia | ]).
  apply NoDup_nil_2.
Qed.

Lemma triple_moves_as_list sx sy sz :
  triple_moves sx sy sz = list_to_set (triple_moves_list sx sy sz).
Proof.
  unfold triple_moves, triple_moves_list, set_add. simpl.
  replace (sx + -3) with (sx - 3) by lia.
  replace (sy + -3) with (sy - 3) by lia.
  replace (sz + -3) with (sz - 3) by lia.
  apply set_eq. intros c.
  rewrite !elem_of_union, !elem_of_singleton, elem_of_empty.
  tauto.
Qed.

Lemma triple_moves_list_spec sx sy sz c :
  c ∈ triple_moves_list sx sy sz ↔ three_axis_move (sx, sy, sz) c.
Proof.
  unfold triple_moves_list, three_axis_move.
  rewrite !elem_of_cons, elem_of_nil. split.
  - intros H. repeat (destruct H as [H | H]); try done; subst c;
      first [ exists (-3), (-3), (-3); split_and!; [lia | lia | lia | done]
            | exists (-3), (-3), 3; split_and!; [lia | lia | lia | done]
            | exists (-3), 3, (-3); split_and!; [lia | lia | lia | done]
            | exists (-3), 3, 3; split_and!; [lia | lia | lia | done]
            | exists 3, (-3), (-3); split_and!; [lia | lia | lia | done]
            | exists 3, (-3), 3; split_and!; [lia | lia | lia | done]
            | exists 3, 3, (-3); split_and!; [lia | lia | lia | done]
            | exists 3, 3, 3; split_and!; [lia | lia | lia | done] ].
  - intros (d1 & d2 & d3 & [-> | ->] & [-> | ->] & [-> | ->] & ->); tauto.
Qed.

Lemma three_axis_move_distance s c : three_axis_move s c → manhattan s c = 9.
Proof.
  destruct s as [[sx sy] sz]. unfold three_axis_move, manhattan.
  intros (d1 & d2 & d3 & H1 & H2 & H3 & ->). lia.
Qed.

(** The candidates read from a set: the free elements, each once. *)
Lemma free_targets_of_list (l : list StandardCoord) occupied_coords :
  NoDup l →
  NoDup (free_targets_of_set (list_to_set l) occupied_coords)
  ∧ (length (free_targets_of_set (list_to_set l) occupied_coords) ≤ length l)%nat
  ∧ (∀ c, c ∈ free_targets_of_set (list_to_set l) occupied_coords
          ↔ c ∈ l ∧ c ∉ occupied_coords)
  ∧ (occupied_coords = [] →
     length (free_targets_of_set (list_to_set l) occupied_coords) = length l).
Proof.
  intros Hl. unfold free_targets_of_set.
  pose proof (elements_list_to_set (C:=gset StandardCoord) l Hl) as Hperm.
  split_and!.
  - apply filter_NoDup, NoDup_elements.
  - etrans; [apply List.filter_length_le|]. by rewrite Hperm.
  - intros c. rewrite filter_not_occupied_elem. by rewrite Hperm.
  - intros ->. by rewrite filter_not_occupied_nil, Hperm.
Qed.

(** X13: with step [3] the candidates are the moves by [3] or [-3] along
    one axis that are not occupied, each once; six of them when nothing is
    occupied. *)
Theorem single_moves_candidates (rnd : nat → nat) (source : StandardCoord)
    occupied_coords :
  ∃ targets,
    generate_tentative_target_positions rnd source 3 occupied_coords = Some targets
    ∧ NoDup targets
    ∧ (length targets ≤ 6)%nat
    ∧ (∀ c, c ∈ targets ↔ one_axis_move source c ∧ c ∉ occupied_coords)
    ∧ (occupied_coords = [] → length targets = 6%nat).
Proof.
  destruct source as [[sx sy] sz]. eexists. split; [reflexivity|]. split_and!.
  - apply filter_NoDup, single_moves_NoDup.
  - etrans; [apply List.filter_length_le | done].
  - intros c. by rewrite filter_not_occupied_elem, single_moves_spec.
  - intros ->. by rewrite filter_not_occupied_nil.
Qed.

(** X14: with step [6] the candidates are the moves by [3] or [-3] along
    exactly two axes that are not occupied, each once. *)
Theorem double_moves_free_candidates (rnd : nat → nat) (source : StandardCoord)
    occupied_coords :
  ∃ targets,
    generate_tentative_target_positions rnd source 6 occupied_coords = Some targets
    ∧ NoDup targets
    ∧ (length targets ≤ 12)%nat
    ∧ (∀ c, c ∈ targets ↔ two_axis_move source c ∧ c ∉ occupied_coords).
Proof.
  destruct source as [[sx sy] sz]. eexists. split; [reflexivity|].
  rewrite double_moves_as_list.
  destruct (free_targets_of_list (double_moves_list sx sy sz) occupied_coords
              (double_moves_list_NoDup sx sy sz)) as (Hnd & Hlen & Hmem & _).
  split_and!; [done | done |].
  intros c. by rewrite Hmem, double_moves_list_spec.
Qed.

(** X15: with step [9] the candidates are the moves by [3] or [-3] along
    all three axes that are not occupied, each once; eight of them when
    nothing is occupied. *)
Theorem triple_moves_candidates (rnd : nat → nat) (source : StandardCoord)
    occupied_coords :
  ∃ targets,
    generate_tentative_target_positions rnd source 9 occupied_coords = Some targets
    ∧ NoDup targets
    ∧ (length targets ≤ 8)%nat
    ∧ (∀ c, c ∈ targets ↔ three_axis_move source c ∧ c ∉ occupied_coords)
    ∧ (occupied_coords = [] → length targets = 8%nat).
Proof.
  destruct source as [[sx sy] sz]. eexists. split; [reflexivity|].
  rewrite triple_moves_as_list.
  destruct (free_targets_of_list (triple_moves_list sx sy sz) occupied_coords
              (triple_moves_list_NoDup sx sy sz)) as (Hnd & Hlen & Hmem & Hall).
  split_and!; [done | done | | done].
  intros c. by rewrite Hmem, triple_moves_list_spec.
Qed.

End Candidates.

(** ** Candidate generation: what every result satisfies *)

Section CandidatesSound.

Variable rnd : nat → nat.
Variables sx sy sz step : Z.
Variable occupied_coords : list StandardCoord.

Lemma one_axis_move_lattice (c : StandardCoord) :
  one_axis_move (sx, sy, sz) c → on_lattice (sx, sy, sz) c.
Proof.
  intros (d & [-> | ->] & [-> | [-> | ->]]); unfold on_lattice; split_and!;
    first [ by (exists 1; lia) | by (exists (-1); lia) | by (exists 0; lia) ].
Qed.

Lemma two_axis_move_lattice (c : StandardCoord) :
  two_axis_move (sx, sy, sz) c → on_lattice (sx, sy, sz) c.
Proof.
  intros (d1 & d2 & [-> | ->] & [-> | ->] & [-> | [-> | ->]]); unfold on_lattice;
    split_and!;
    first [ by (exists 1; lia) | by (exists (-1); lia) | by (exists 0; lia) ].
Qed.

Lemma three_axis_move_lattice (c : StandardCoord) :
  three_axis_move (sx, sy, sz) c → on_lattice (sx, sy, sz) c.
Proof.
  intros (d1 & d2 & d3 & [-> | ->] & [-> | ->] & [-> | ->] & ->); unfold on_lattice;
    split_and!; first [ by (exists 1; lia) | by (exists (-1); lia) ].
Qed.

(** A draw from [range(-r, r + 1, 3)] is a multiple of [3] when [r] is. *)
Lemma choice_range_multiple (d : nat) (r m : Z) :
  (3 | r) → choice d (Py.range (- r) (r + 1) 3) = Some m → (3 | m).
Proof.
  intros Hr Hm. unfold choice in Hm.
  pose proof (lookup_lt_Some _ _ _ Hm) as Hlt. rewrite range_length in Hlt, Hm.
  rewrite range_lookup in Hm by exact Hlt. injection Hm as <-.
  apply Z.divide_add_r; [by apply Z.divide_opp_r | apply Z.divide_factor_r].
Qed.

Lemma add_if_valid_lattice (valid : gset StandardCoord) (m c : Z * Z * Z) :
  (3 | m.1.1) ∧ (3 | m.1.2) ∧ (3 | m.2) →
  c ∈ add_if_valid sx sy sz step occupied_coords valid m →
  c ∈ valid ∨ on_lattice (sx, sy, sz) c.
Proof.
  destruct m as [[mx my] mz]. cbn [fst snd]. intros (Hx & Hy & Hz).
  unfold add_if_valid, set_add.
  destruct (_ && _); [|by left].
  rewrite elem_of_union, elem_of_singleton.
  intros [Hc | ->]; [by left | right]. unfold on_lattice.
  replace (sx + mx - sx) with mx by lia.
  replace (sy + my - sy) with my by lia.
  replace (sz + mz - sz) with mz by lia. done.
Qed.

Lemma foldl_add_lattice (moves : list (Z * Z * Z)) : ∀ (valid : gset StandardCoord) c,
  Forall (λ m, (3 | m.1.1) ∧ (3 | m.1.2) ∧ (3 | m.2)) moves →
  c ∈ foldl (add_if_valid sx sy sz step occupied_coords) valid moves →
  c ∈ valid ∨ on_lattice (sx, sy, sz) c.
Proof.
  induction moves as [|m moves IH]; intros valid c Hall Hc; [by left|].
  apply Forall_cons in Hall as [Hm Hall]. cbn [foldl] in Hc.
  destruct (IH _ c Hall Hc) as [Hin | Hnew]; [|by right].
  by apply (add_if_valid_lattice valid m).
Qed.

Lemma attempt_lattice (st st' : search_state) :
  (3 | step) →
  attempt rnd sx sy sz step occupied_coords st = Some st' →
  ∀ c, c ∈ valid_targets st' → c ∈ valid_targets st ∨ on_lattice (sx, sy, sz) c.
Proof.
  intros Hstep. unfold attempt.
  destruct (choice (rnd (draws st)) _) as [mx|] eqn:Hx; [|done].
  cbn [mbind option_bind].
  destruct (choice (rnd (S (draws st))) _) as [my|] eqn:Hy; [|done].
  cbn [mbind option_bind]. intros Heq. apply (inj Some) in Heq. subst st'.
  cbn [valid_targets].
  assert (3 | mx) as Hmx by (by apply (choice_range_multiple _ _ _ Hstep Hx)).
  assert (3 | step - Z.abs mx) as Hr.
  { apply Z.divide_sub_r; [done | by apply Z.divide_abs_r]. }
  assert (3 | my) as Hmy by (by apply (choice_range_multiple _ _ _ Hr Hy)).
  set (mz := step - Z.abs mx - Z.abs my).
  assert (3 | mz) as Hmz.
  { apply Z.divide_sub_r; [done | by apply Z.divide_abs_r]. }
  change (if (Z.abs mx + Z.abs my + Z.abs mz =? step)
             && not_occupied occupied_coords (sx + mx, sy + my, sz + mz)
          then set_add (valid_targets st) (sx + mx, sy + my, sz + mz)
          else valid_targets st)
    with (add_if_valid sx sy sz step occupied_coords (valid_targets st) (mx, my, mz)).
  intros c Hc. apply foldl_add_lattice in Hc as [Hc | Hc]; [| by right |].
  - by apply (add_if_valid_lattice _ (mx, my, mz)).
  - repeat (apply Forall_cons; split; [done|]). apply Forall_nil_2.
Qed.

Lemma search_loop_lattice (fuel : nat) : ∀ (st st' : search_state),
  (3 | step) →
  search_loop rnd sx sy sz step occupied_coords fuel st = Some st' →
  (∀ c, c ∈ valid_targets st → on_lattice (sx, sy, sz) c) →
  ∀ c, c ∈ valid_targets st' → on_lattice (sx, sy, sz) c.
Proof.
  induction fuel as [|fuel IH]; intros st st' Hstep; cbn [search_loop];
    destruct (search_continues st); try done; try (by intros [= <-]).
  destruct (attempt rnd sx sy sz step occupied_coords st) as [st1|] eqn:Hatt; [|done].
  cbn [mbind option_bind]. intros Hrun Hst. apply (IH st1 st' Hstep Hrun).
  intros c Hc. destruct (attempt_lattice st st1 Hstep Hatt c Hc) as [Hin | Hnew];
    [by apply Hst | done].
Qed.

(** What the closed forms give: free candidates at the distance of the
    branch, on the lattice. *)
Lemma closed_form_sound (l : list StandardCoord) (moved : StandardCoord → Prop)
    (bound : nat) (targets : list StandardCoord) :
  NoDup targets → (length targets ≤ bound)%nat → (bound ≤ 17)%nat →
  (∀ c, c ∈ targets → moved c ∧ c ∉ occupied_coords) →
  (∀ c, moved c → manhattan (sx, sy, sz) c = step ∧ on_lattice (sx, sy, sz) c) →
  step mod 3 = 0 → 3 ≤ step →
  NoDup targets
  ∧ (length targets ≤ 17)%nat
  ∧ (∀ c, c ∈ targets →
       manhattan (sx, sy, sz) c = step ∧ (c ∉ occupied_coords)
       ∧ on_lattice (sx, sy, sz) c ∧ is_move_allowed (sx, sy, sz) c = true)
  ∧ (step < 3 ∨ step mod 3 ≠ 0 → targets = []).
Proof.
  intros Hnd Hlen Hbound Hmem Hmoved Hmod Hge. split_and!; [done | lia | | lia].
  intros c Hc. destruct (Hmem c Hc) as [Hm Hfree].
  destruct (Hmoved c Hm) as [Hdist Hlat]. split_and!; try done.
  rewrite is_move_allowed_manhattan, Hdist. by apply Z.eqb_eq.
Qed.

(** X16: for every step, occupation and random source the function
    returns a list without repetition of at most [17] candidates; every
    candidate is at Manhattan distance [step] from the source, is not
    occupied, differs from the source by a multiple of [3] on each axis and
    passes [is_move_allowed]; for a step below [3] or not a multiple of [3]
    the list is empty. *)
Theorem generate_tentative_target_positions_sound :
  ∃ targets,
    generate_tentative_target_positions rnd (sx, sy, sz) step occupied_coords
    = Some targets
    ∧ NoDup targets
    ∧ (length targets ≤ 17)%nat
    ∧ (∀ c, c ∈ targets →
         manhattan (sx, sy, sz) c = step ∧ (c ∉ occupied_coords)
         ∧ on_lattice (sx, sy, sz) c ∧ is_move_allowed (sx, sy, sz) c = true)
    ∧ (step < 3 ∨ step mod 3 ≠ 0 → targets = []).
Proof.
  unfold generate_tentative_target_positions.
  destruct (step =? 3) eqn:H3.
  { apply Z.eqb_eq in H3. eexists. split; [reflexivity|].
    apply (closed_form_sound (single_moves sx sy sz) (one_axis_move (sx, sy, sz)) 6).
    - apply filter_NoDup, single_moves_NoDup.
    - etrans; [apply List.filter_length_le | done].
    - lia.
    - intros c. by rewrite filter_not_occupied_elem, single_moves_spec.
    - intros c Hc. split; [rewrite H3; by apply one_axis_move_distance
                          | by apply one_axis_move_lattice].
    - by rewrite H3.
    - lia. }
  destruct (step =? 6) eqn:H6.
  { apply Z.eqb_eq in H6. eexists. split; [reflexivity|].
    rewrite double_moves_as_list.
    destruct (free_targets_of_list (double_moves_list sx sy sz) occupied_coords
                (double_moves_list_NoDup sx sy sz)) as (Hnd & Hlen & Hmem & _).
    apply (closed_form_sound (double_moves_list sx sy sz) (two_axis_move (sx, sy, sz)) 12);
      [done | done | lia | | | by rewrite H6 | lia].
    - intros c. by rewrite Hmem, double_moves_list_spec.
    - intros c Hc. split; [rewrite H6; by apply two_axis_move_distance
                          | by apply two_axis_move_lattice]. }
  destruct (step =? 9) eqn:H9.
  { apply Z.eqb_eq in H9. eexists. split; [reflexivity|].
    rewrite triple_moves_as_list.
    destruct (free_targets_of_list (triple_moves_list sx sy sz) occupied_coords
                (triple_moves_list_NoDup sx sy sz)) as (Hnd & Hlen & Hmem & _).
    apply (closed_form_sound (triple_moves_list sx sy sz) (three_axis_move (sx, sy, sz)) 8);
      [done | done | lia | | | by rewrite H9 | lia].
    - intros c. by rewrite Hmem, triple_moves_list_spec.
    - intros c Hc. split; [rewrite H9; by apply three_axis_move_distance
                          | by apply three_axis_move_lattice]. }
  destruct ((9 <? step) && (step mod 3 =? 0)) eqn:Hbranch.
  - apply andb_true_iff in Hbranch as [Hgt Hmod].
    apply Z.ltb_lt in Hgt. apply Z.eqb_eq in Hmod.
    destruct (search_loop_spec rnd sx sy sz step occupied_coords 500
                {| valid_targets := ∅; attempts := 0; draws := 0 |})
      as (st & Hloop & Hend & Hatt & Hsize & Hok).
    { lia. }
    { split_and!; cbn [attempts valid_targets]; [lia | lia | | ].
      - rewrite size_empty. lia.
      - intros c Hc. by apply elem_of_empty in Hc. }
    { cbn [attempts]. lia. }
    assert (3 | step) as Hdiv by (apply Z.mod_divide; [lia | done]).
    pose proof (search_loop_lattice 500 _ st Hdiv Hloop) as Hlat.
    exists (elements (valid_targets st)). split_and!.
    + unfold random_search. by rewrite Hloop.
    + apply NoDup_elements.
    + done.
    + intros c Hc. apply elem_of_elements in Hc. destruct (Hok c Hc) as [Hdist Hfree].
      split_and!; [done | done | |].
      * apply Hlat; [|done]. intros c' Hc'. by apply elem_of_empty in Hc'.
      * rewrite is_move_allowed_manhattan, Hdist. by apply Z.eqb_eq.
    + lia.
  - exists []. split_and!; [done | apply NoDup_nil_2 | cbn; lia | | done].
    intros c Hc. by apply elem_of_nil in Hc.
Qed.

End CandidatesSound.

(** ** Pruning: which beams survive, and how prunings compose *)

Section PruningFacts.

Implicit Types (occupied_coords : list StandardCoord) (all_beams : list NodeBeams)
  (node_beams kept : NodeBeams) (b : StandardBeam).

Lemma beam_is_free_spec occupied_coords b :
  beam_is_free occupied_coords b = true ↔ ∀ c, c ∈ b → c ∉ occupied_coords.
Proof.
  unfold beam_is_free. induction b as [|c b IH]; cbn [map forallb].
  - split; [|done]. intros _ c Hc. by apply elem_of_nil in Hc.
  - rewrite andb_true_iff, IH. unfold not_occupied at 1.
    rewrite negb_true_iff, <- not_true_iff_false, coord_in_coords_spec. split.
    + intros [Hc Hb] c' Hc'. apply elem_of_cons in Hc' as [-> | Hc']; [done | by apply Hb].
    + intros H. split; [apply H; left | intros c' Hc'; apply H; by right].
Qed.

Lemma beam_is_free_app occupied_coords occupied_coords' b :
  beam_is_free (occupied_coords ++ occupied_coords') b
  = beam_is_free occupied_coords b && beam_is_free occupied_coords' b.
Proof.
  apply eq_true_iff_eq. rewrite andb_true_iff, !beam_is_free_spec. split.
  - intros H. split; intros c Hc Hocc; apply (H c Hc), elem_of_app; [by left | by right].
  - intros [H1 H2] c Hc Hocc. apply elem_of_app in Hocc as [Hocc | Hocc];
      [by apply (H1 c) | by apply (H2 c)].
Qed.

Lemma surviving_beams_elem occupied_coords node_beams b :
  b ∈ surviving_beams occupied_coords node_beams
  ↔ b ∈ node_beams ∧ ∀ c, c ∈ b → c ∉ occupied_coords.
Proof.
  unfold surviving_beams.
  by rewrite list_elem_of_In, filter_In, <- list_elem_of_In, beam_is_free_spec.
Qed.

Lemma surviving_node_Some occupied_coords node_beams kept :
  surviving_node occupied_coords node_beams = Some kept
  ↔ kept = surviving_beams occupied_coords node_beams ∧ kept ≠ [].
Proof.
  unfold surviving_node.
  destruct (surviving_beams occupied_coords node_beams) as [|b l]; split.
  - done.
  - by intros [-> ?].
  - by intros [= <-].
  - by intros [-> _].
Qed.

Lemma surviving_beams_app occupied_coords occupied_coords' node_beams :
  surviving_beams (occupied_coords ++ occupied_coords') node_beams
  = surviving_beams occupied_coords' (surviving_beams occupied_coords node_beams).
Proof.
  unfold surviving_beams. induction node_beams as [|b l IH]; [done|].
  cbn [List.filter]. rewrite beam_is_free_app.
  destruct (beam_is_free occupied_coords b); cbn [andb List.filter];
    [destruct (beam_is_free occupied_coords' b)|]; by rewrite IH.
Qed.

Lemma omap_length_le {A B : Type} (f : A → option B) (l : list A) :
  (length (omap f l) ≤ length l)%nat.
Proof.
  induction l as [|x l IH]; [done|]. cbn [omap list_omap length].
  destruct (f x); cbn [length]; lia.
Qed.

(** X17: a beam is left by the pruning exactly when it is a beam of the
    input with no cell in [occupied_coords]; no node is left without
    beams, and no node is added. *)
Theorem prune_all_beams_survivors all_beams occupied_coords :
  (∀ b, (∃ kept, kept ∈ prune_all_beams all_beams occupied_coords ∧ b ∈ kept)
        ↔ (∃ node_beams, node_beams ∈ all_beams ∧ b ∈ node_beams)
          ∧ ∀ c, c ∈ b → c ∉ occupied_coords)
  ∧ ([] ∉ prune_all_beams all_beams occupied_coords)
  ∧ (length (prune_all_beams all_beams occupied_coords) ≤ length all_beams)%nat.
Proof.
  rewrite prune_all_beams_omap. split_and!.
  - intros b. split.
    + intros (kept & Hkept & Hb). apply list_elem_of_omap in Hkept as (nb & Hnb & Hs).
      apply surviving_node_Some in Hs as [-> _].
      apply surviving_beams_elem in Hb as [Hb Hfree]. split; [by exists nb | done].
    + intros [(nb & Hnb & Hb) Hfree].
      assert (b ∈ surviving_beams occupied_coords nb) as Hin
        by (by apply surviving_beams_elem).
      exists (surviving_beams occupied_coords nb). split; [|done].
      apply list_elem_of_omap. exists nb. split; [done|].
      apply surviving_node_Some. split; [done|]. intros Hnil. rewrite Hnil in Hin.
      by apply elem_of_nil in Hin.
  - intros Hin. apply list_elem_of_omap in Hin as (nb & _ & Hs).
    by apply surviving_node_Some in Hs as [_ ?].
  - apply omap_length_le.
Qed.

Lemma omap_pointwise {A B : Type} (f g : A → option B) (l : list A) :
  (∀ x, f x = g x) → omap f l = omap g l.
Proof.
  intros Hfg. induction l as [|x l IH]; [done|]. cbn [omap list_omap].
  by rewrite Hfg, IH.
Qed.

Lemma prune_all_beams_twice all_beams occupied_coords occupied_coords' :
  prune_all_beams (prune_all_beams all_beams occupied_coords) occupied_coords'
  = omap (λ nb, match surviving_beams occupied_coords'
                        (surviving_beams occupied_coords nb) with
                | [] => None
                | kept => Some kept
                end) all_beams.
Proof.
  rewrite !prune_all_beams_omap.
  induction all_beams as [|nb l IH]; [done|]. cbn [omap list_omap].
  unfold surviving_node at 2.
  destruct (surviving_beams occupied_coords nb) as [|b k] eqn:Hk.
  - cbn [surviving_beams List.filter]. exact IH.
  - cbn [omap list_omap]. unfold surviving_node at 1. rewrite IH.
    by destruct (surviving_beams occupied_coords' (b :: k)).
Qed.

Lemma surviving_beams_comm occupied_coords occupied_coords' node_beams :
  surviving_beams occupied_coords (surviving_beams occupied_coords' node_beams)
  = surviving_beams occupied_coords' (surviving_beams occupied_coords node_beams).
Proof.
  unfold surviving_beams. induction node_beams as [|b nb IH]; [done|].
  cbn [List.filter].
  destruct (beam_is_free occupied_coords b) eqn:H1,
           (beam_is_free occupied_coords' b) eqn:H2;
    cbn [List.filter]; rewrite ?H1, ?H2, ?IH; done.
Qed.

(** X18: pruning by one list of cells and then by another is pruning by
    both at once; so two prunings commute. *)
Theorem prune_all_beams_compose all_beams occupied_coords occupied_coords' :
  prune_all_beams (prune_all_beams all_beams occupied_coords) occupied_coords'
  = prune_all_beams all_beams (occupied_coords ++ occupied_coords')
  ∧ prune_all_beams (prune_all_beams all_beams occupied_coords) occupied_coords'
    = prune_all_beams (prune_all_beams all_beams occupied_coords') occupied_coords.
Proof.
  split.
  - rewrite prune_all_beams_twice, prune_all_beams_omap. unfold surviving_node.
    apply omap_pointwise. intros nb. by rewrite surviving_beams_app.
  - rewrite !prune_all_beams_twice.
    apply omap_pointwise. intros nb. by rewrite surviving_beams_comm.
Qed.

(** X19: the pruning leaves [all_beams] as it is exactly when every node
    has a beam and no beam has a cell in [occupied_coords]. *)
Theorem prune_all_beams_unchanged all_beams occupied_coords :
  prune_all_beams all_beams occupied_coords = all_beams
  ↔ ([] ∉ all_beams)
    ∧ ∀ node_beams b c, node_beams ∈ all_beams → b ∈ node_beams → c ∈ b →
        c ∉ occupied_coords.
Proof.
  split.
  - intros Heq. split.
    + intros Hin. rewrite <- Heq in Hin.
      by destruct (prune_all_beams_kept occupied_coords all_beams [] Hin).
    + intros nb b c Hnb Hb Hc. rewrite <- Heq in Hnb.
      destruct (prune_all_beams_kept occupied_coords all_beams nb Hnb) as [_ Hfree].
      by apply (Hfree b).
  - intros [Hne Hfree]. rewrite prune_all_beams_omap.
    induction all_beams as [|nb l IH]; [done|]. cbn [omap list_omap].
    assert (surviving_beams occupied_coords nb = nb) as Hsame.
    { unfold surviving_beams.
      assert (∀ b, b ∈ nb → beam_is_free occupied_coords b = true) as Hall.
      { intros b Hb. apply beam_is_free_spec. intros c Hc.
        apply (Hfree nb b c); [left | done | done]. }
      clear -Hall. induction nb as [|b nb IHnb]; [done|]. cbn [List.filter].
      rewrite (Hall b) by left. f_equal. apply IHnb. intros b' Hb'. apply Hall. by right. }
    unfold surviving_node. rewrite Hsame.
    destruct nb as [|b nb]; [exfalso; apply Hne; left|].
    f_equal. apply IH.
    + intros Hin. apply Hne. by right.
    + intros nb' b' c Hnb'. apply Hfree. by right.
Qed.

End PruningFacts.

(** ** Re-indexing: when it returns and what the result looks like *)

Section Reindexing.

Implicit Types (edge_paths : list EdgePath) (edge_path : EdgePath)
  (nodes : list (Z * StandardBlock)) (edges : list (Z * Z * string)).

(** Induction on a list two elements at a time. *)
Lemma list_pairs_ind {A : Type} (P : list A → Prop) :
  P [] → (∀ x, P [x]) → (∀ x y l, P l → P (x :: y :: l)) → ∀ l, P l.
Proof.
  intros Hnil Hone Hstep.
  assert (∀ l, P l ∧ ∀ x, P (x :: l)) as H.
  { induction l as [|y l [IH1 IH2]]; [by split|].
    split; [apply IH2 | intros x; by apply Hstep]. }
  intros l. apply H.
Qed.

Lemma pipe_entries_even_keys (l : list (Z * StandardBlock)) (a b : Z) :
  (a, b) ∈ Dict.keys (pipe_entries l) →
  a ∈ Dict.keys (even_entries l) ∧ b ∈ Dict.keys (even_entries l).
Proof.
  unfold Dict.keys. induction l as [|x|x y l IH] using list_pairs_ind.
  - intros H. by apply elem_of_nil in H.
  - intros H. by apply elem_of_nil in H.
  - destruct l as [|b2 l].
    + intros H. by apply elem_of_nil in H.
    + cbn [pipe_entries even_entries map fst]. intros H.
      apply elem_of_cons in H as [[= -> ->] | Hin].
      * split; [left | right; left].
      * destruct (IH Hin) as [Ha Hb]. split; by right.
Qed.

(** X20: an edge path without nodes makes the function raise, wherever it
    stands among the paths. *)
Theorem build_newly_indexed_path_dict_empty_path edge_paths edge_path :
  edge_path ∈ edge_paths →
  path_nodes edge_path = [] →
  build_newly_indexed_path_dict edge_paths = None.
Proof.
  intros Hin Hnil. rewrite build_newly_indexed_path_dict_unfold, index_paths_unfold.
  destruct (Py.for_each edge_paths index_step _) as [result|] eqn:Hrun; [|done].
  exfalso. by apply (index_loop_nonempty _ _ _ _ Hrun edge_path Hin).
Qed.

(** X21: in a result, every edge joins two nodes of the result: both ids
    of each key of [latice_edges] are keys of [latice_nodes]. *)
Theorem build_newly_indexed_path_dict_edges_join_nodes edge_paths nodes edges :
  build_newly_indexed_path_dict edge_paths = Some (nodes, edges) →
  ∀ a b, (a, b) ∈ Dict.keys edges → a ∈ Dict.keys nodes ∧ b ∈ Dict.keys nodes.
Proof.
  rewrite build_newly_indexed_path_dict_unfold.
  destruct (index_paths _ _) as [[n indexed_paths]|]; [|done].
  cbn [mbind option_bind]. rewrite lattice_of_spec.
  destruct (forallb walkable (Dict.values indexed_paths)); [|done].
  intros [= <- <-] a b Hk.
  apply write_all_keys in Hk as [Hk | Hk]; [by apply elem_of_nil in Hk|].
  unfold Dict.keys in Hk. apply list_elem_of_fmap in Hk as ([[a' b'] ty] & [= -> ->] & Hin).
  apply elem_of_concat in Hin as (pipes & Hin & Hpipes).
  apply list_elem_of_fmap in Hpipes as (item & -> & Hitem).
  assert ((a', b') ∈ Dict.keys (pipe_entries item)) as Hkey.
  { apply list_elem_of_fmap. by exists ((a', b'), ty). }
  apply pipe_entries_even_keys in Hkey as [Ha Hb].
  assert (∀ k, k ∈ Dict.keys (even_entries item) →
               k ∈ Dict.keys (write_all ([] : list (Z * StandardBlock))
                                (concat (even_entries <$> Dict.values indexed_paths))))
    as Hnode.
  { intros k Hk. apply write_all_keys. right.
    unfold Dict.keys in Hk |- *. apply list_elem_of_fmap in Hk as (e & -> & He).
    apply list_elem_of_fmap. exists e. split; [done|].
    apply elem_of_concat. exists (even_entries item). split; [done|].
    apply list_elem_of_fmap. by exists item. }
  split; by apply Hnode.
Qed.

(** The length of a path's mapping when its two ids differ. *)
Lemma assigned_path_length (n : Z) edge_path :
  length (assigned_path n edge_path) = length (path_nodes edge_path).
Proof.
  unfold assigned_path. destruct (src_tgt_ids edge_path) as [s e].
  rewrite length_zip. cbn [length]. rewrite length_app, fresh_ids_length.
  rewrite intermediate_nodes_length. cbn [length]. lia.
Qed.

Lemma assigned_path_walkable (n : Z) edge_path :
  path_nodes edge_path ≠ [] →
  walkable (assigned_path n edge_path) = Nat.odd (length (path_nodes edge_path)).
Proof.
  intros Hne. pose proof (assigned_path_length n edge_path) as Hlen.
  unfold walkable. destruct (assigned_path n edge_path) as [|e l]; [|by rewrite Hlen].
  destruct (path_nodes edge_path); [done | discriminate Hlen].
Qed.

Lemma assigned_paths_walkable edge_paths : ∀ (n : Z),
  (∀ edge_path, edge_path ∈ edge_paths → path_nodes edge_path ≠ []) →
  forallb walkable (Dict.values (assigned_paths n edge_paths))
  = forallb (λ edge_path, Nat.odd (length (path_nodes edge_path))) edge_paths.
Proof.
  induction edge_paths as [|p ps IH]; intros n Hne; [done|].
  cbn [assigned_paths Dict.values map snd forallb].
  rewrite assigned_path_walkable by (apply Hne; left).
  f_equal. apply IH. intros q Hq. apply Hne. by right.
Qed.

(** The result for paths whose pairs of ids are pairwise distinct. *)
Lemma build_distinct_ids edge_paths :
  (∀ edge_path, edge_path ∈ edge_paths →
     path_nodes edge_path ≠ []
     ∧ (length (path_nodes edge_path) = 1%nat
        ∨ (src_tgt_ids edge_path).1 ≠ (src_tgt_ids edge_path).2)) →
  NoDup (src_tgt_ids <$> edge_paths) →
  let indexed_paths := assigned_paths (max_endpoint_id edge_paths + 1) edge_paths in
  build_newly_indexed_path_dict edge_paths
  = if forallb (λ edge_path, Nat.odd (length (path_nodes edge_path))) edge_paths
    then Some (write_all [] (concat (even_entries <$> Dict.values indexed_paths)),
               write_all [] (concat (pipe_entries <$> Dict.values indexed_paths)))
    else None.
Proof.
  intros Hall Hnd indexed_paths.
  destruct (max_endpoint_id_spec edge_paths) as (_ & Hmax & _).
  rewrite build_newly_indexed_path_dict_unfold, index_paths_unfold.
  rewrite index_loop_assigned.
  2:{ intros p Hp. destruct (Hall p Hp) as [Hne Hids]. destruct (Hmax p Hp).
      split_and!; [done | lia | lia | done]. }
  cbn [mbind option_bind].
  rewrite write_all_fresh by (cbn [Dict.keys map app]; by rewrite assigned_paths_keys).
  cbn [app]. rewrite lattice_of_spec. fold indexed_paths.
  unfold indexed_paths at 1. rewrite assigned_paths_walkable; [done|].
  intros p Hp. by destruct (Hall p Hp).
Qed.

(** X22: for paths with pairwise distinct pairs of ids, each with at least
    one node and, when it has more, two different ids, the function
    returns exactly when every path has an odd number of nodes; a path
    that ends in a pipe makes it raise. *)
Theorem build_newly_indexed_path_dict_returns edge_paths :
  (∀ edge_path, edge_path ∈ edge_paths →
     path_nodes edge_path ≠ []
     ∧ (length (path_nodes edge_path) = 1%nat
        ∨ (src_tgt_ids edge_path).1 ≠ (src_tgt_ids edge_path).2)) →
  NoDup (src_tgt_ids <$> edge_paths) →
  is_Some (build_newly_indexed_path_dict edge_paths)
  ↔ ∀ edge_path, edge_path ∈ edge_paths →
      Nat.odd (length (path_nodes edge_path)) = true.
Proof.
  intros Hall Hnd. rewrite (build_distinct_ids edge_paths Hall Hnd).
  destruct (forallb _ edge_paths) eqn:Hodd.
  - split; [|by eexists]. intros _ p Hp.
    rewrite forallb_forall in Hodd. apply Hodd. by apply list_elem_of_In.
  - split; [by intros [? ?]|]. intros H. exfalso.
    apply not_true_iff_false in Hodd. apply Hodd, forallb_forall.
    intros p Hp. apply H. by apply list_elem_of_In.
Qed.

(** Entries at even positions: maps, ends and repetitions. *)
Lemma even_entries_map {A B : Type} (f : A → B) (l : list A) :
  map f (even_entries l) = even_entries (map f l).
Proof.
  induction l as [|x|x y l IH] using list_pairs_ind; [done | done |].
  cbn [even_entries map]. by rewrite IH.
Qed.

Lemma even_entries_sublist {A : Type} (l : list A) : even_entries l `sublist_of` l.
Proof.
  induction l as [|x|x y l IH] using list_pairs_ind; [done | done |].
  cbn [even_entries]. by apply sublist_skip, sublist_cons.
Qed.

Lemma even_entries_head {A : Type} (l : list A) : head (even_entries l) = head l.
Proof. by destruct l. Qed.

Lemma even_entries_last {A : Type} (l : list A) :
  Nat.odd (length l) = true → last (even_entries l) = last l.
Proof.
  induction l as [|x|x y l IH] using list_pairs_ind; [done | done |].
  cbn [length]. rewrite Nat.odd_succ_succ. intros Hodd. specialize (IH Hodd).
  destruct l as [|z l]; [done|].
  cbn [even_entries] in IH |- *. by rewrite !last_cons_cons in *.
Qed.

(** The edges of a path form a chain through its blocks, and carry the
    kinds of its pipes. *)
Lemma pipe_entries_chain (l : list (Z * StandardBlock)) :
  Dict.keys (pipe_entries l)
  = zip (Dict.keys (even_entries l)) (drop 1 (Dict.keys (even_entries l))).
Proof.
  unfold Dict.keys.
  induction l as [|x|x y l IH] using list_pairs_ind; [done | done |].
  destruct l as [|b2 l]; [done|].
  cbn [pipe_entries even_entries map fst drop zip zip_with] in IH |- *.
  by rewrite IH.
Qed.

Lemma pipe_entries_kinds (l : list (Z * StandardBlock)) :
  Nat.odd (length l) = true →
  Dict.values (pipe_entries l) = map snd (even_entries (drop 1 (Dict.values l))).
Proof.
  unfold Dict.values.
  induction l as [|x|x y l IH] using list_pairs_ind; [done | done |].
  cbn [length]. rewrite Nat.odd_succ_succ. intros Hodd. specialize (IH Hodd).
  destruct l as [|b2 l]; [done|].
  cbn [pipe_entries even_entries map snd drop] in IH |- *. by rewrite IH.
Qed.

Lemma write_all_distinct {K V : Type} `{EqDecision K} (l : list (K * V)) :
  NoDup (Dict.keys l) → write_all [] l = l.
Proof. intros Hnd. by rewrite write_all_fresh. Qed.

(** X23: one path with an odd number of nodes, at least three, between
    two different ids gives its blocks as nodes and its pipes as edges:
    the nodes are the elements at even positions, in order, under distinct
    ids that start with the start id and end with the end id; the edges
    join consecutive nodes and carry the kinds of the elements between
    them. *)
Theorem build_newly_indexed_path_dict_single_path edge_path :
  Nat.odd (length (path_nodes edge_path)) = true →
  (1 < length (path_nodes edge_path))%nat →
  (src_tgt_ids edge_path).1 ≠ (src_tgt_ids edge_path).2 →
  ∃ nodes edges,
    build_newly_indexed_path_dict [edge_path] = Some (nodes, edges)
    ∧ Dict.values nodes = even_entries (path_nodes edge_path)
    ∧ Dict.values edges = map snd (even_entries (drop 1 (path_nodes edge_path)))
    ∧ Dict.keys edges = zip (Dict.keys nodes) (drop 1 (Dict.keys nodes))
    ∧ NoDup (Dict.keys nodes)
    ∧ head (Dict.keys nodes) = Some (src_tgt_ids edge_path).1
    ∧ last (Dict.keys nodes) = Some (src_tgt_ids edge_path).2.
Proof.
  intros Hodd Hlen Hids.
  set (n := max_endpoint_id [edge_path] + 1).
  set (l := assigned_path n edge_path).
  destruct (assigned_path_keys_values n edge_path) as [Hkeys Hvalues]; [lia|].
  fold l in Hkeys, Hvalues.
  destruct (max_endpoint_id_spec [edge_path]) as (_ & Hmax & _).
  destruct (Hmax edge_path) as [Hs He]; [left|]. fold n in Hs, He.
  assert (NoDup (Dict.keys l)) as Hnd.
  { rewrite Hkeys. apply NoDup_cons. split.
    - rewrite elem_of_app, elem_of_fresh_ids, list_elem_of_singleton. lia.
    - apply NoDup_app. split_and!; [apply fresh_ids_NoDup | | apply NoDup_singleton].
      intros k Hk. rewrite list_elem_of_singleton. apply elem_of_fresh_ids in Hk. lia. }
  assert (Nat.odd (length (Dict.keys l)) = true) as Hodd_keys.
  { unfold Dict.keys. rewrite length_map. unfold l.
    by rewrite assigned_path_length. }
  assert (NoDup (Dict.keys (even_entries l))) as Hnd_nodes.
  { unfold Dict.keys. rewrite even_entries_map.
    apply (sublist_NoDup _ (map fst l)); [exact Hnd | apply even_entries_sublist]. }
  assert (NoDup (Dict.keys (pipe_entries l))) as Hnd_edges.
  { rewrite pipe_entries_chain. by apply NoDup_zip_l. }
  exists (even_entries l), (pipe_entries l). split_and!.
  - rewrite build_distinct_ids.
    + cbn [forallb]. rewrite Hodd. cbn [andb].
      cbn [assigned_paths Dict.values map snd fmap list_fmap concat].
      fold n. fold l. rewrite !app_nil_r.
      by rewrite !write_all_distinct.
    + intros p Hp. apply list_elem_of_singleton in Hp as ->.
      split; [|by right]. intros Hnil. rewrite Hnil in Hlen. cbn in Hlen. lia.
    + cbn [fmap list_fmap]. apply NoDup_singleton.
  - unfold Dict.values in *. by rewrite even_entries_map, Hvalues.
  - rewrite pipe_entries_kinds; [by rewrite Hvalues|].
    unfold l. by rewrite assigned_path_length.
  - apply pipe_entries_chain.
  - exact Hnd_nodes.
  - unfold Dict.keys in *. rewrite even_entries_map, even_entries_head. by rewrite Hkeys.
  - unfold Dict.keys in *. rewrite even_entries_map, even_entries_last by exact Hodd_keys.
    rewrite Hkeys. by rewrite app_comm_cons, last_snoc.
Qed.

End Reindexing.

Lemma build_newly_indexed_path_dict_empty_path_witness :
  {| src_tgt_ids := (1, 2); path_nodes := [] |}
    ∈ [short_path_0_1; {| src_tgt_ids := (1, 2); path_nodes := [] |}]
  ∧ path_nodes {| src_tgt_ids := (1, 2); path_nodes := [] |} = []
  ∧ build_newly_indexed_path_dict
      [short_path_0_1; {| src_tgt_ids := (1, 2); path_nodes := [] |}] = None.
Proof.
  assert ({| src_tgt_ids := (1, 2); path_nodes := [] |}
            ∈ [short_path_0_1; {| src_tgt_ids := (1, 2); path_nodes := [] |}]) as Hin.
  { right. left. }
  split; [exact Hin|]. split; [reflexivity|].
  apply (build_newly_indexed_path_dict_empty_path _ _ Hin). reflexivity.
Defined.

Lemma build_newly_indexed_path_dict_edges_join_nodes_witness :
  build_newly_indexed_path_dict two_paths
  = Some ([(0, block_a); (1, block_b); (5, block_c); (2, block_b)],
          [((0, 1), "zxo"); ((1, 5), "xoz"); ((5, 2), "xoz")]%string)
  ∧ (1, 5) ∈ Dict.keys [((0, 1), "zxo"); ((1, 5), "xoz"); ((5, 2), "xoz")]%string
  ∧ 1 ∈ Dict.keys [(0, block_a); (1, block_b); (5, block_c); (2, block_b)]
  ∧ 5 ∈ Dict.keys [(0, block_a); (1, block_b); (5, block_c); (2, block_b)].
Proof.
  assert ((1, 5) ∈ Dict.keys [((0, 1), "zxo"); ((1, 5), "xoz"); ((5, 2), "xoz")]%string)
    as Hin.
  { right. left. }
  split; [reflexivity|]. split; [exact Hin|].
  apply (build_newly_indexed_path_dict_edges_join_nodes two_paths
           [(0, block_a); (1, block_b); (5, block_c); (2, block_b)]
           [((0, 1), "zxo"); ((1, 5), "xoz"); ((5, 2), "xoz")]%string);
    [reflexivity | exact Hin].
Defined.

Lemma build_newly_indexed_path_dict_returns_witness :
  NoDup (src_tgt_ids <$> two_paths)
  ∧ (is_Some (build_newly_indexed_path_dict two_paths)
     ↔ ∀ edge_path, edge_path ∈ two_paths →
         Nat.odd (length (path_nodes edge_path)) = true).
Proof.
  assert (NoDup (src_tgt_ids <$> two_paths)) as Hnd.
  { apply NoDup_cons. split; [|apply NoDup_singleton].
    intros H. apply list_elem_of_singleton in H. discriminate H. }
  split; [exact Hnd|].
  apply (build_newly_indexed_path_dict_returns two_paths); [|exact Hnd].
  intros p Hp. apply elem_of_cons in Hp as [-> | Hp];
    [|apply list_elem_of_singleton in Hp as ->];
    (split; [discriminate | right; discriminate]).
Defined.

Lemma build_newly_indexed_path_dict_single_path_witness :
  ∃ nodes edges,
    build_newly_indexed_path_dict [long_path_0_1] = Some (nodes, edges)
    ∧ Dict.values nodes = even_entries (path_nodes long_path_0_1)
    ∧ Dict.values edges = map snd (even_entries (drop 1 (path_nodes long_path_0_1)))
    ∧ Dict.keys edges = zip (Dict.keys nodes) (drop 1 (Dict.keys nodes))
    ∧ NoDup (Dict.keys nodes)
    ∧ head (Dict.keys nodes) = Some (src_tgt_ids long_path_0_1).1
    ∧ last (Dict.keys nodes) = Some (src_tgt_ids long_path_0_1).2.
Proof.
  apply (build_newly_indexed_path_dict_single_path long_path_0_1);
    [reflexivity | cbn; lia | discriminate].
Defined.

(** ** Rotation: results, errors and the Hadamard table *)

Section RotationFacts.

Local Open Scope char_scope.

#[local] Arguments ascii_dec : simpl never.

Local Abbreviation kind3 a b c rest := (String a (String b (String c rest))).

Lemma str_index_first_o a b c rest (i : nat) :
  first_o a b c = Some i →
  Py.str_index (kind3 a b c rest) "o" = Some i ∧ (i < 3)%nat.
Proof.
  unfold first_o. repeat case_decide; intros [= <-]; subst; (split; [|lia]).
  - apply str_index_o_0.
  - by apply str_index_o_1.
  - by apply str_index_o_2.
Qed.

Lemma str_index_past_axes a b c rest :
  first_o a b c = None →
  Py.str_index (kind3 a b c rest) "o" = None
  ∨ ∃ n, Py.str_index (kind3 a b c rest) "o" = Some (S (S (S n))).
Proof.
  unfold first_o. repeat case_decide; intros [=].
  unfold Py.str_index. simpl.
  destruct (ascii_dec "o" a) as [<-|_]; [done|].
  destruct (ascii_dec "o" b) as [<-|_]; [done|].
  destruct (ascii_dec "o" c) as [<-|_]; [done|].
  destruct (String.index 0 "o" rest) as [n|]; [right; by exists n | by left].
Qed.

Lemma str_contains_h_cons a s :
  Py.str_contains (String a s) "h"
  = if ascii_dec "h" a then true else Py.str_contains s "h".
Proof.
  unfold Py.str_contains. simpl.
  destruct (ascii_dec "h" a); [by destruct s|].
  by destruct (String.index 0 "h" s).
Qed.

(** X24: when one of the three axis characters is ['o'], the rotation
    keeps the first ['o'] in place, exchanges the other two axis
    characters, drops what follows them, and appends ['h'] exactly when the
    input holds an ['h']. *)
Theorem rotate_o_types_result a b c rest (i : nat) :
  first_o a b c = Some i →
  rotate_o_types (kind3 a b c rest)
  = Some (String.append (swap_other_axes i a b c) (h_suffix (kind3 a b c rest))).
Proof.
  intros Hi. destruct (str_index_first_o a b c rest i Hi) as [Hidx Hlt].
  by rewrite (rotate_o_types_eval a b c rest i Hidx Hlt).
Qed.

(** X25: the rotation raises exactly when the input has fewer than three
    characters or none of its first three characters is ['o']. *)
Theorem rotate_o_types_raises (pipe_type : string) :
  rotate_o_types pipe_type = None
  ↔ ∀ a b c rest, pipe_type = kind3 a b c rest → first_o a b c = None.
Proof.
  destruct pipe_type as [|a [|b [|c rest]]].
  - split; [by intros _ a b c rest [=] | done].
  - split; [by intros _ a' b c rest [=]|]. intros _.
    unfold rotate_o_types, Py.str_index, Py.str_contains. simpl.
    destruct (ascii_dec "o" a), (ascii_dec "h" a); reflexivity.
  - split; [by intros _ a' b' c rest [=]|]. intros _.
    unfold rotate_o_types, Py.str_index, Py.str_contains. simpl.
    destruct (ascii_dec "o" a), (ascii_dec "o" b), (ascii_dec "h" a), (ascii_dec "h" b);
      reflexivity.
  - destruct (first_o a b c) as [i|] eqn:Hi.
    + destruct (str_index_first_o a b c rest i Hi) as [Hidx Hlt].
      rewrite (rotate_o_types_eval a b c rest i Hidx Hlt). split; [done|].
      intros H. specialize (H a b c rest eq_refl). congruence.
    + split; [by intros _ a' b' c' rest' [= <- <- <- <-]|]. intros _.
      unfold rotate_o_types.
      destruct (str_index_past_axes a b c rest Hi) as [-> | [n ->]]; reflexivity.
Qed.

(** X26: for three axis characters with exactly one ['o'], two rotations
    give the axis characters back, followed by ['h'] exactly when the
    input holds an ['h']; what else followed them is lost. *)
Theorem rotate_o_types_twice_normalises a b c rest :
  one_exit_marker a b c →
  rotate_o_types (kind3 a b c rest) ≫= rotate_o_types
  = Some (kind3 a b c (h_suffix (kind3 a b c rest))).
Proof.
  intros Hone. apply one_exit_marker_cases in Hone.
  assert (∀ x y z,
            (x = a ∧ y = c ∧ z = b) ∨ (x = c ∧ y = b ∧ z = a) ∨ (x = b ∧ y = a ∧ z = c) →
            h_suffix (kind3 x y z (h_suffix (kind3 a b c rest)))
            = h_suffix (kind3 a b c rest)) as Hflag.
  { intros x y z Hperm. unfold h_suffix. rewrite !str_contains_h_cons.
    destruct Hperm as [(-> & -> & ->) | [(-> & -> & ->) | (-> & -> & ->)]];
      destruct (ascii_dec "h" a), (ascii_dec "h" b), (ascii_dec "h" c);
      try reflexivity; by destruct (Py.str_contains rest "h"). }
  destruct Hone as [(-> & Hb & Hc) | [(Ha & -> & Hc) | (Ha & Hb & ->)]].
  - rewrite (rotate_o_types_eval _ _ _ rest 0); [|done | lia].
    fold (h_suffix (kind3 "o" b c rest)).
    cbn [swap_other_axes mbind option_bind].
    lazymatch goal with
    | |- context [String.append (kind3 ?x ?y ?z EmptyString) ?s] =>
        change (String.append (kind3 x y z EmptyString) s) with (kind3 x y z s)
    end.
    rewrite (rotate_o_types_eval _ _ _ _ 0); [|done | lia].
    fold (h_suffix (kind3 "o" c b (h_suffix (kind3 "o" b c rest)))).
    rewrite Hflag by tauto. cbn [swap_other_axes]. reflexivity.
  - rewrite (rotate_o_types_eval _ _ _ rest 1); [|by apply str_index_o_1 | lia].
    fold (h_suffix (kind3 a "o" c rest)).
    cbn [swap_other_axes mbind option_bind].
    lazymatch goal with
    | |- context [String.append (kind3 ?x ?y ?z EmptyString) ?s] =>
        change (String.append (kind3 x y z EmptyString) s) with (kind3 x y z s)
    end.
    rewrite (rotate_o_types_eval _ _ _ _ 1); [|by apply str_index_o_1 | lia].
    fold (h_suffix (kind3 c "o" a (h_suffix (kind3 a "o" c rest)))).
    rewrite Hflag by tauto. cbn [swap_other_axes]. reflexivity.
  - rewrite (rotate_o_types_eval _ _ _ rest 2); [|by apply str_index_o_2 | lia].
    fold (h_suffix (kind3 a b "o" rest)).
    cbn [swap_other_axes mbind option_bind].
    lazymatch goal with
    | |- context [String.append (kind3 ?x ?y ?z EmptyString) ?s] =>
        change (String.append (kind3 x y z EmptyString) s) with (kind3 x y z s)
    end.
    rewrite (rotate_o_types_eval _ _ _ _ 2); [|by apply str_index_o_2 | lia].
    fold (h_suffix (kind3 b a "o" (h_suffix (kind3 a b "o" rest)))).
    rewrite Hflag by tauto. cbn [swap_other_axes]. reflexivity.
Qed.

(** X27: wherever the Hadamard table gives a kind, the rotation gives the
    same kind, and it is not the kind that was given. *)
Theorem adjust_hadamards_direction_is_rotation (pipe_type flipped : string) :
  adjust_hadamards_direction pipe_type = Some flipped →
  rotate_o_types pipe_type = Some flipped ∧ flipped ≠ pipe_type.
Proof.
  unfold adjust_hadamards_direction, Dict.mem. simpl.
  repeat case_decide; try discriminate; subst pipe_type; intros [= <-];
    (split; [reflexivity | discriminate]).
Qed.

End RotationFacts.

Lemma rotate_o_types_result_witness :
  first_o "x" "o" "z" = Some 1%nat
  ∧ rotate_o_types "xozhq"
    = Some (String.append (swap_other_axes 1 "x" "o" "z") (h_suffix "xozhq")).
Proof.
  split; [reflexivity|].
  apply (rotate_o_types_result "x" "o" "z" "hq" 1). reflexivity.
Defined.

Lemma rotate_o_types_twice_normalises_witness :
  one_exit_marker "x" "o" "z"
  ∧ rotate_o_types "xozhq" ≫= rotate_o_types = Some "xozh"%string.
Proof.
  split; [reflexivity|].
  apply (rotate_o_types_twice_normalises "x" "o" "z" "hq"). reflexivity.
Defined.

Lemma adjust_hadamards_direction_is_rotation_witness :
  adjust_hadamards_direction "xozh" = Some "zoxh"%string
  ∧ rotate_o_types "xozh" = Some "zoxh"%string
  ∧ "zoxh"%string ≠ "xozh"%string.
Proof.
  split; [reflexivity|].
  apply (adjust_hadamards_direction_is_rotation "xozh" "zoxh"). reflexivity.
Defined.

(** ** The exit classifier reads three characters, in lower case *)

Section ExitKindReading.

Lemma ascii_lower_idemp (c : ascii) : ascii_lower (ascii_lower c) = ascii_lower c.
Proof. by destruct c as [[] [] [] [] [] [] [] []]. Qed.

Lemma str_lower_idemp (s : string) : str_lower (str_lower s) = str_lower s.
Proof. induction s as [|c s IH]; [done|]. cbn [str_lower]. by rewrite ascii_lower_idemp, IH. Qed.

Lemma str_lower_app (s1 s2 : string) :
  str_lower (String.append s1 s2) = String.append (str_lower s1) (str_lower s2).
Proof.
  induction s1 as [|c s IH]; [done|].
  change (String.append (String c s) s2) with (String c (String.append s s2)).
  change (String.append (str_lower (String c s)) (str_lower s2))
    with (String (ascii_lower c) (String.append (str_lower s) (str_lower s2))).
  cbn [str_lower]. by rewrite IH.
Qed.

Lemma check_is_exit_by_axes s t (kind kind' : option string) :
  kind_axes kind = kind_axes kind' →
  check_is_exit s kind t = check_is_exit s kind' t.
Proof.
  intros Heq. destruct (kind_axes kind') as [[[a b] c]|] eqn:Haxes.
  - by rewrite (check_is_exit_axes s kind t a b c Heq),
               (check_is_exit_axes s kind' t a b c Haxes).
  - by rewrite (check_is_exit_no_axes s kind t Heq),
               (check_is_exit_no_axes s kind' t Haxes).
Qed.

(** X28: on ASCII strings the verdict reads the first three characters
    of the kind only, and reads them in lower case: an ASCII suffix (the
    Hadamard marker, for one) and the case of the letters play no part. *)
Theorem check_is_exit_reads_three_axes (s t : StandardCoord) (kind suffix : string) :
  ascii_only kind = true →
  ascii_only suffix = true →
  (3 ≤ String.length kind)%nat →
  check_is_exit s (Some (String.append kind suffix)) t = check_is_exit s (Some kind) t
  ∧ check_is_exit s (Some (str_lower kind)) t = check_is_exit s (Some kind) t.
Proof.
  intros _ _ Hlen. split; apply check_is_exit_by_axes; unfold kind_axes.
  - rewrite str_lower_app.
    destruct kind as [|a [|b [|c rest]]]; cbn [String.length] in Hlen; try lia.
    reflexivity.
  - by rewrite str_lower_idemp.
Qed.

End ExitKindReading.

Lemma check_is_exit_reads_three_axes_witness :
  ascii_only "ZXO" = true
  ∧ ascii_only "h" = true
  ∧ (3 ≤ String.length "ZXO")%nat
  ∧ check_is_exit (0, 0, 0) (Some (String.append "ZXO" "h")) (0, 0, 3)
    = check_is_exit (0, 0, 0) (Some "ZXO"%string) (0, 0, 3)
  ∧ check_is_exit (0, 0, 0) (Some (str_lower "ZXO")) (0, 0, 3)
    = check_is_exit (0, 0, 0) (Some "ZXO"%string) (0, 0, 3).
Proof.
  split; [reflexivity|]. split; [reflexivity|]. split; [cbn; lia|].
  apply (check_is_exit_reads_three_axes (0, 0, 0) (0, 0, 3) "ZXO" "h");
    [reflexivity | reflexivity | cbn; lia].
Defined.
